(** * Orbital position model of the turtle solar-system simulators

    A shallow embedding of the position-update code of three scripts:

    - [GreatestUniverse]: the simulator stored after the marker
      [# === greatest universe.py ===] in [chandragayidea.py]
      (time-driven elliptical orbits, pan, zoom, trails, pause);
    - [SolarSystem]: [solar_system.py] (angle-driven orbits, moons, comets);
    - [Universe]: [universe.py] (angle-driven circular orbits);
    - [ColorMixer]: the colour mixer at the head of [chandragayidea.py]
      (hexadecimal colours), whose string functions [shade_color] shares.

    Python [float] values are embedded as real numbers: the arithmetic
    operators are the exact ones, [math.cos], [math.sin], [math.sqrt] and
    [math.log] are the real functions, and rounding, overflow, infinities and
    NaN are outside the model.  Exceptions that the arithmetic can raise
    ([ZeroDivisionError] for [/] and [%] by zero, [ValueError] for
    [math.sqrt] of a negative number) are kept, in a small error monad.
    Calls into [turtle] and the Tk canvas only draw; they are left out, and
    the values handed to them are the ones computed here. *)

From Stdlib Require Import String.
From Stdlib Require Import Reals Lra Lia ZArith Bool List.
Import ListNotations.
Open Scope R_scope.

(** ** Python arithmetic on floats *)

Inductive PyError : Type :=
| ZeroDivisionError
| ValueError.

Inductive result (A : Type) : Type :=
| Ok (a : A)
| Raise (err : PyError).

Arguments Ok {A} a.
Arguments Raise {A} err.

Definition bind {A B : Type} (m : result A) (k : A -> result B) : result B :=
  match m with
  | Ok a => k a
  | Raise err => Raise err
  end.

Notation "x <- m ;; k" := (bind m (fun x => k))
  (at level 61, m at next level, right associativity).
Notation "' pat <- m ;; k" := (bind m (fun x => match x with pat => k end))
  (at level 61, pat pattern, m at next level, right associativity).

(** [for x in xs: f(x)] over objects that are updated in place, stopping at
    the first exception. *)
Fixpoint for_each {A : Type} (f : A -> result A) (xs : list A) : result (list A) :=
  match xs with
  | [] => Ok []
  | x :: rest =>
      x' <- f x ;;
      rest' <- for_each f rest ;;
      Ok (x' :: rest')
  end.

Definition raises {A : Type} (m : result A) : Prop :=
  exists err, m = Raise err.

Definition returns {A : Type} (m : result A) : Prop :=
  exists a, m = Ok a.

(** [x / y] *)
Definition float_truediv (x y : R) : result R :=
  if Req_dec_T y 0 then Raise ZeroDivisionError else Ok (x / y).

(** [x % y]: the remainder takes the sign of [y], that is
    [x - y * floor(x / y)]. *)
Definition float_mod (x y : R) : result R :=
  if Req_dec_T y 0 then Raise ZeroDivisionError
  else Ok (x - y * IZR (Zfloor (x / y))).

(** [max(a, b)] and [min(a, b)] return the first argument on a tie. *)
Definition py_max (a b : R) : R := if Rlt_dec a b then b else a.
Definition py_min (a b : R) : R := if Rlt_dec b a then b else a.

Definition math_sqrt (x : R) : result R :=
  if Rlt_dec x 0 then Raise ValueError else Ok (sqrt x).

Definition math_radians (deg : R) : R := deg * (PI / 180).
Definition math_cos (x : R) : R := cos x.
Definition math_sin (x : R) : R := sin x.

(** [math.log] raises on a non-positive argument. *)
Definition math_log (x : R) : result R :=
  if Rle_lt_dec x 0 then Raise ValueError else Ok (ln x).

(** [list.append] followed by the bounded-queue idiom
    [if len(trail) > bound: trail.pop(0)]. *)
Definition pop0 {A : Type} (l : list A) : list A := tl l.

Definition append_bounded {A : Type} (bound : nat) (trail : list A) (pt : A) : list A :=
  let trail := trail ++ [pt] in
  if (bound <? length trail)%nat then pop0 trail else trail.

(** ** More Python arithmetic *)

(** [math.hypot(x, y)] *)
Definition math_hypot (x y : R) : R := sqrt (x * x + y * y).

(** [int(x)] on a float truncates toward zero. *)
Definition int_of_float (x : R) : Z :=
  if Rlt_dec x 0 then (- Zfloor (- x))%Z else Zfloor x.

(** [x ** y] on floats for a base that is not negative (a negative base
    with a fractional exponent gives a complex number, which the type
    excludes): [0.0 ** y] is 0.0 for a positive [y], 1.0 for [y = 0], and
    raises [ZeroDivisionError] for a negative [y]. *)
Definition float_pow (x : nonnegreal) (y : R) : result R :=
  if Req_dec_T (nonneg x) 0
  then
    if Rlt_dec 0 y then Ok 0
    else if Req_dec_T y 0 then Ok 1
    else Raise ZeroDivisionError
  else Ok (Rpower (nonneg x) y).

From Stdlib Require Import Ascii.

(** ** Python strings of ASCII characters

    A [str] is embedded as a [string]; the functions below are the ones of
    [str] and [int] on strings whose characters are all ASCII. *)

(** [s.lstrip(c)] for a one-character [c]. *)
Fixpoint lstrip_char (c : Ascii.ascii) (s : string) : string :=
  match s with
  | String c' rest => if Ascii.eqb c' c then lstrip_char c rest else s
  | EmptyString => s
  end.

(** [s[i:i+2]] *)
Definition slice2 (i : nat) (s : string) : string := substring i 2 s.

(** The white space that [int] skips around an ASCII literal: tab, line
    feed, vertical tab, form feed, carriage return and space. *)
Definition is_space (c : Ascii.ascii) : bool :=
  let n := Ascii.nat_of_ascii c in
  ((9 <=? n)%nat && (n <=? 13)%nat) || (n =? 32)%nat.

Definition hex_digit_value (c : Ascii.ascii) : option Z :=
  let n := Z.of_nat (Ascii.nat_of_ascii c) in
  if ((48 <=? n) && (n <=? 57))%Z then Some (n - 48)%Z
  else if ((97 <=? n) && (n <=? 102))%Z then Some (n - 87)%Z
  else if ((65 <=? n) && (n <=? 70))%Z then Some (n - 55)%Z
  else None.

Fixpoint lstrip_space (s : string) : string :=
  match s with
  | String c rest => if is_space c then lstrip_space rest else s
  | EmptyString => s
  end.

(** The digits of a literal: hexadecimal digits, with single underscores
    between digits.  The result is the value and what follows the digits;
    [None] when there is no digit, or an underscore is doubled or last. *)
Fixpoint scan_hex_digits (s : string) (acc : Z) (ndigits : nat) (after_underscore : bool)
    : option (Z * string) :=
  let finish :=
    if after_underscore then None
    else match ndigits with O => None | S _ => Some (acc, s) end in
  match s with
  | String c rest =>
      match hex_digit_value c with
      | Some d => scan_hex_digits rest (acc * 16 + d)%Z (S ndigits) false
      | None =>
          if Ascii.eqb c "_"%char
          then if after_underscore then None
               else scan_hex_digits rest acc ndigits true
          else finish
      end
  | EmptyString => finish
  end.

(** [int(s, 16)]: optional white space, an optional sign, an optional
    [0x] or [0X] prefix (which one underscore may follow), the digits, and
    optional white space up to the end; [ValueError] otherwise. *)
Definition int16 (s : string) : result Z :=
  let s := lstrip_space s in
  let '(negative, s) :=
    match s with
    | String c rest =>
        if Ascii.eqb c "+"%char then (false, rest)
        else if Ascii.eqb c "-"%char then (true, rest)
        else (false, s)
    | EmptyString => (false, s)
    end in
  let s :=
    match s with
    | String c0 (String c1 rest) =>
        if Ascii.eqb c0 "0"%char && (Ascii.eqb c1 "x"%char || Ascii.eqb c1 "X"%char)
        then match rest with
             | String c2 rest' => if Ascii.eqb c2 "_"%char then rest' else rest
             | EmptyString => rest
             end
        else s
    | _ => s
    end in
  match s with
  | String c _ =>
      if Ascii.eqb c "_"%char then Raise ValueError
      else
        match scan_hex_digits s 0 0 false with
        | Some (v, rest) =>
            match lstrip_space rest with
            | EmptyString => Ok (if negative then (- v)%Z else v)
            | String _ _ => Raise ValueError
            end
        | None => Raise ValueError
        end
  | EmptyString => Raise ValueError
  end.

Definition hex_char (d : Z) : Ascii.ascii :=
  if (d <? 10)%Z then Ascii.ascii_of_nat (Z.to_nat (d + 48))
  else Ascii.ascii_of_nat (Z.to_nat (d + 87)).

(** The lowercase hexadecimal digits of a natural number, most significant
    first; [fuel] bounds the number of digits. *)
Fixpoint hex_digits (fuel : nat) (n : Z) (acc : string) : string :=
  let acc := String (hex_char (n mod 16)) acc in
  match fuel with
  | O => acc
  | S fuel' => if (n / 16 =? 0)%Z then acc else hex_digits fuel' (n / 16) acc
  end.

(** ['%02x' % n] and [f"{n:02x}"] for an [int]: lowercase hexadecimal,
    at least two characters wide, the sign of a negative number included
    in the width. *)
Definition format_02x (n : Z) : string :=
  if (n <? 0)%Z
  then String "-"%char (hex_digits (Z.to_nat (Z.log2 (- n))) (- n) EmptyString)
  else
    let digits := hex_digits (Z.to_nat (Z.log2 n)) n EmptyString in
    match digits with
    | String _ EmptyString => String "0"%char digits
    | _ => digits
    end.

(** ** The colour mixer at the head of chandragayidea.py *)

Module ColorMixer.

Definition hex_to_rgb (hex_color : string) : result (Z * Z * Z) :=
  let hex_color := lstrip_char "#"%char hex_color in
  r <- int16 (slice2 0 hex_color) ;;
  g <- int16 (slice2 2 hex_color) ;;
  b <- int16 (slice2 4 hex_color) ;;
  Ok (r, g, b).

Definition rgb_to_hex (rgb_color : Z * Z * Z) : string :=
  let '(r, g, b) := rgb_color in
  String "#"%char (format_02x r ++ format_02x g ++ format_02x b)%string.

Definition blend_colors (color1 color2 : string) : result string :=
  '(r1, g1, b1) <- hex_to_rgb color1 ;;
  '(r2, g2, b2) <- hex_to_rgb color2 ;;
  let blended := ((r1 + r2) / 2, (g1 + g2) / 2, (b1 + b2) / 2)%Z in
  Ok (rgb_to_hex blended).

End ColorMixer.

(** ** greatest universe.py (stored in chandragayidea.py) *)

Module GreatestUniverse.

Definition AU_TO_PIXELS : R := 200.
Definition MAX_TRAIL_POINTS : nat := 120.

(** The module-level variables that the key handlers and the frame loop
    rebind through [global]. *)
Record Globals : Type := mkGlobals {
  GLOBAL_SCALE : R;
  TIME_SCALE : R;
  paused : bool;
  SHOW_ORBITS : bool;
  SHOW_LABELS : bool;
  SHOW_TRAILS : bool;
  view_offset_x : R;
  view_offset_y : R;
  last_time : R;
  sim_days : R
}.

(** [DEFAULT_VIEW = (0, 0, 1.0)]: offset_x, offset_y, GLOBAL_SCALE. *)
Definition DEFAULT_VIEW : R * R * R := (0, 0, 1).

(** The values the module assigns before the loop starts; [start] is the
    reading of [time.time()] taken for [last_time]. *)
Definition initial_globals (start : R) : Globals :=
  {| GLOBAL_SCALE := 1;
     TIME_SCALE := 120;
     paused := false;
     SHOW_ORBITS := true;
     SHOW_LABELS := true;
     SHOW_TRAILS := true;
     view_offset_x := 0;
     view_offset_y := 0;
     last_time := start;
     sim_days := 0 |}.

Definition clamp (v a b : R) : R := py_max a (py_min b v).

Definition radius_km_to_pixels (radius_km : R) : result R :=
  let a := 2.8 in
  let b := 1.5 in
  l <- math_log (py_max 1 radius_km) ;;
  let px := a * l + b in
  Ok (clamp px 3 60).

Definition moon_dist_to_pixels (dist_thousand_km parent_radius_px : R) : R :=
  let base := parent_radius_px * 2.5 in
  base + dist_thousand_km * 0.02.

Definition au_to_px (g : Globals) (au : R) : R :=
  au * AU_TO_PIXELS * GLOBAL_SCALE g.

Definition d2r (deg : R) : R := math_radians deg.

Module CelestialBody.

Definition world_to_screen (g : Globals) (x y : R) : R * R :=
  let sx := (x + view_offset_x g) * GLOBAL_SCALE g in
  let sy := (y + view_offset_y g) * GLOBAL_SCALE g in
  (sx, sy).

End CelestialBody.

(** [Moon] keeps a reference to its parent planet and reads only
    [self.parent.radius_px] through it, a value fixed by [Planet.__init__];
    [draw] receives that value from the planet whose [moons] list holds the
    moon. *)
Module Moon.

Record t : Type := mk {
  name : string;
  dist_thousand_km : R;
  orbital_period : R;
  radius_km : R;
  radius_px : R;
  ecc : R;
  incl : R;
  angle : R;
  curr_x : R;
  curr_y : R;
  trail : list (R * R)
}.

Definition set_curr (self : t) (x y : R) : t :=
  mk (name self) (dist_thousand_km self) (orbital_period self) (radius_km self)
     (radius_px self) (ecc self) (incl self) (angle self) x y (trail self).

Definition set_trail (self : t) (tr : list (R * R)) : t :=
  mk (name self) (dist_thousand_km self) (orbital_period self) (radius_km self)
     (radius_px self) (ecc self) (incl self) (angle self)
     (curr_x self) (curr_y self) tr.

(** [rand_angle] is the draw [random.uniform(0, 360)]. *)
Definition init (name : string) (dist_thousand_km period_days radius_km ecc inc_deg : R)
    (rand_angle : R) : result t :=
  px <- radius_km_to_pixels radius_km ;;
  Ok (mk name dist_thousand_km period_days radius_km (py_max 2.5 (px * 0.45))
         ecc inc_deg rand_angle 0 0 []).

(** The world position computed at the head of [draw]. *)
Definition position (self : t) (parent_radius_px : R) (sim_days parent_x parent_y : R)
    : result (R * R) :=
  q <- float_truediv sim_days (orbital_period self) ;;
  frac <- float_mod q 1 ;;
  let theta := frac * 360 + angle self in
  let rad := math_radians theta in
  let r_px := moon_dist_to_pixels (dist_thousand_km self) parent_radius_px in
  let x := parent_x + r_px * math_cos rad in
  let y := parent_y + r_px * math_sin rad * math_cos (math_radians (incl self)) in
  Ok (x, y).

Definition draw (g : Globals) (parent_radius_px : R) (self : t)
    (sim_days dt_days parent_x parent_y : R) : result t :=
  '(x, y) <- position self parent_radius_px sim_days parent_x parent_y ;;
  let self := set_curr self x y in
  let '(sx, sy) := CelestialBody.world_to_screen g x y in
  let self :=
    if SHOW_TRAILS g
    then set_trail self (append_bounded MAX_TRAIL_POINTS (trail self) (sx, sy))
    else set_trail self [] in
  Ok self.

End Moon.

(** Display-only attributes (colour, axial tilt, rings, label and turtle
    handles) are not part of the record. *)
Module Planet.

Record t : Type := mk {
  name : string;
  a : R;
  e : R;
  period_days : R;
  radius_km : R;
  radius_px : R;
  angle_deg : R;
  inclination : R;
  rotation_hours : R;
  rotation_angle : R;
  curr_x : R;
  curr_y : R;
  moons : list Moon.t;
  trail : list (R * R)
}.

Definition set_curr (self : t) (x y : R) : t :=
  mk (name self) (a self) (e self) (period_days self) (radius_km self)
     (radius_px self) (angle_deg self) (inclination self) (rotation_hours self)
     (rotation_angle self) x y (moons self) (trail self).

Definition set_rotation_angle (self : t) (rot : R) : t :=
  mk (name self) (a self) (e self) (period_days self) (radius_km self)
     (radius_px self) (angle_deg self) (inclination self) (rotation_hours self)
     rot (curr_x self) (curr_y self) (moons self) (trail self).

Definition set_trail (self : t) (tr : list (R * R)) : t :=
  mk (name self) (a self) (e self) (period_days self) (radius_km self)
     (radius_px self) (angle_deg self) (inclination self) (rotation_hours self)
     (rotation_angle self) (curr_x self) (curr_y self) (moons self) tr.

Definition set_moons (self : t) (ms : list Moon.t) : t :=
  mk (name self) (a self) (e self) (period_days self) (radius_km self)
     (radius_px self) (angle_deg self) (inclination self) (rotation_hours self)
     (rotation_angle self) (curr_x self) (curr_y self) ms (trail self).

(** [rand_angle] and [rand_rot] are the two draws [random.uniform(0, 360)]. *)
Definition init (name : string) (a_au ecc inc_deg period_days radius_km rot_hours : R)
    (rand_angle rand_rot : R) : result t :=
  px <- radius_km_to_pixels radius_km ;;
  Ok (mk name a_au ecc period_days radius_km px rand_angle inc_deg rot_hours
         rand_rot 0 0 [] []).

Definition compute_orbital_position (g : Globals) (self : t) (sim_days : R)
    : result (t * (R * R)) :=
  q <- float_truediv sim_days (period_days self) ;;
  frac <- float_mod q 1 ;;
  let theta := frac * 360 + angle_deg self in
  let a_px := au_to_px g (a self) in
  s <- math_sqrt (1 - e self * e self) ;;
  let b_px := a_px * s in
  let rad := math_radians theta in
  let x := a_px * math_cos rad in
  let y := b_px * math_sin rad in
  let inc_rad := math_radians (inclination self) in
  let y := y * math_cos inc_rad in
  Ok (set_curr self x y, (x, y)).

(** [update_visual] only resizes and recolours the turtle. *)
Definition update_visual (g : Globals) (self : t) : t := self.

Definition draw (g : Globals) (self : t) (sim_days dt_days : R) : result t :=
  '(self, (x, y)) <- compute_orbital_position g self sim_days ;;
  rot <- (if Req_dec_T (rotation_hours self) 0
          then Ok (rotation_angle self)
          else
            h <- float_truediv (rotation_hours self) 24 ;;
            turn <- float_truediv (360 * dt_days) h ;;
            float_mod (rotation_angle self + turn) 360) ;;
  let self := set_rotation_angle self rot in
  let self := set_curr self x y in
  let '(sx, sy) := CelestialBody.world_to_screen g x y in
  let self :=
    if SHOW_TRAILS g
    then set_trail self (append_bounded MAX_TRAIL_POINTS (trail self) (sx, sy))
    else set_trail self [] in
  ms <- for_each
          (fun m => Moon.draw g (radius_px self) m sim_days dt_days
                              (curr_x self) (curr_y self))
          (moons self) ;;
  Ok (set_moons self ms).

End Planet.

(** The fallible part of [draw_orbits]: the semi-minor axis of every orbit. *)
Fixpoint draw_orbits_planets (g : Globals) (planets : list Planet.t) : result unit :=
  match planets with
  | [] => Ok tt
  | p :: rest =>
      _ <- math_sqrt (1 - Planet.e p * Planet.e p) ;;
      draw_orbits_planets g rest
  end.

Definition draw_orbits (g : Globals) (planets : list Planet.t) : result unit :=
  if negb (SHOW_ORBITS g) then Ok tt else draw_orbits_planets g planets.

(** *** Interaction handlers

    A handler rebinds globals and then redraws the canvas; the redrawing is
    left out. *)

Definition set_paused (g : Globals) (b : bool) : Globals :=
  mkGlobals (GLOBAL_SCALE g) (TIME_SCALE g) b (SHOW_ORBITS g) (SHOW_LABELS g)
            (SHOW_TRAILS g) (view_offset_x g) (view_offset_y g) (last_time g)
            (sim_days g).

Definition set_TIME_SCALE (g : Globals) (ts : R) : Globals :=
  mkGlobals (GLOBAL_SCALE g) ts (paused g) (SHOW_ORBITS g) (SHOW_LABELS g)
            (SHOW_TRAILS g) (view_offset_x g) (view_offset_y g) (last_time g)
            (sim_days g).

Definition set_show (g : Globals) (orbits labels trails : bool) : Globals :=
  mkGlobals (GLOBAL_SCALE g) (TIME_SCALE g) (paused g) orbits labels trails
            (view_offset_x g) (view_offset_y g) (last_time g) (sim_days g).

Definition set_view (g : Globals) (ox oy scale : R) : Globals :=
  mkGlobals scale (TIME_SCALE g) (paused g) (SHOW_ORBITS g) (SHOW_LABELS g)
            (SHOW_TRAILS g) ox oy (last_time g) (sim_days g).

Definition set_clock (g : Globals) (last sim : R) : Globals :=
  mkGlobals (GLOBAL_SCALE g) (TIME_SCALE g) (paused g) (SHOW_ORBITS g)
            (SHOW_LABELS g) (SHOW_TRAILS g) (view_offset_x g) (view_offset_y g)
            last sim.

Definition toggle_pause (g : Globals) : Globals := set_paused g (negb (paused g)).

Definition speed_up (g : Globals) : Globals := set_TIME_SCALE g (TIME_SCALE g * 1.8).

Definition slow_down (g : Globals) : Globals := set_TIME_SCALE g (TIME_SCALE g / 1.8).

Definition toggle_orbits_action (g : Globals) : Globals :=
  set_show g (negb (SHOW_ORBITS g)) (SHOW_LABELS g) (SHOW_TRAILS g).

Definition toggle_labels_action (g : Globals) : Globals :=
  set_show g (SHOW_ORBITS g) (negb (SHOW_LABELS g)) (SHOW_TRAILS g).

Definition toggle_trails_action (g : Globals) : Globals :=
  set_show g (SHOW_ORBITS g) (SHOW_LABELS g) (negb (SHOW_TRAILS g)).

Definition zoom_in (g : Globals) : Globals :=
  set_view g (view_offset_x g) (view_offset_y g) (GLOBAL_SCALE g * 1.2).

Definition zoom_out (g : Globals) : Globals :=
  set_view g (view_offset_x g) (view_offset_y g) (GLOBAL_SCALE g / 1.2).

Definition pan (dx dy : R) (g : Globals) : result Globals :=
  ox <- float_truediv dx (GLOBAL_SCALE g) ;;
  let g := set_view g (view_offset_x g + ox) (view_offset_y g) (GLOBAL_SCALE g) in
  oy <- float_truediv dy (GLOBAL_SCALE g) ;;
  Ok (set_view g (view_offset_x g) (view_offset_y g + oy) (GLOBAL_SCALE g)).

Definition reset_view (g : Globals) : Globals :=
  let '(ox, oy, scale) := DEFAULT_VIEW in set_view g ox oy scale.

(** *** The frame loop *)

Record World : Type := mkWorld {
  globals : Globals;
  planets : list Planet.t
}.

(** One iteration of the [while True] loop of [main_loop]; [now] is the
    reading of [time.time()] at its head. *)
Definition main_loop_iteration (now : R) (w : World) : result World :=
  let g := globals w in
  let dt_real := now - last_time g in
  let g := set_clock g now (sim_days g) in
  let '(g, dt_sim_days) :=
    if negb (paused g)
    then
      let dt_sim_days := dt_real * TIME_SCALE g in
      (set_clock g (last_time g) (sim_days g + dt_sim_days), dt_sim_days)
    else (g, 0) in
  _ <- draw_orbits g (planets w) ;;
  ps <- for_each
          (fun p => Planet.draw g (Planet.update_visual g p) (sim_days g) dt_sim_days)
          (planets w) ;;
  Ok (mkWorld g ps).

(** What reaches the program between and at frames: the bound keys and the
    clock reading that opens an iteration.  The handlers run inside
    [screen.update()], between two iterations.  [KeyPlus] stands for the
    keys [+] and [=], [KeyMinus] for [-] and [_]; [q] and [Escape] end the
    program, and a click only opens the info panel. *)
Inductive Input : Type :=
| KeySpace
| KeyPlus
| KeyMinus
| KeyO
| KeyL
| KeyT
| KeyZ
| KeyX
| KeyLeft
| KeyRight
| KeyUp
| KeyDown
| KeyR
| Tick (now : R).

Definition on_globals (f : Globals -> Globals) (w : World) : result World :=
  Ok (mkWorld (f (globals w)) (planets w)).

Definition on_pan (dx dy : R) (w : World) : result World :=
  g <- pan dx dy (globals w) ;;
  Ok (mkWorld g (planets w)).

Definition step (i : Input) (w : World) : result World :=
  match i with
  | KeySpace => on_globals toggle_pause w
  | KeyPlus => on_globals speed_up w
  | KeyMinus => on_globals slow_down w
  | KeyO => on_globals toggle_orbits_action w
  | KeyL => on_globals toggle_labels_action w
  | KeyT => on_globals toggle_trails_action w
  | KeyZ => on_globals zoom_in w
  | KeyX => on_globals zoom_out w
  | KeyLeft => on_pan (-40) 0 w
  | KeyRight => on_pan 40 0 w
  | KeyUp => on_pan 0 40 w
  | KeyDown => on_pan 0 (-40) w
  | KeyR => on_globals reset_view w
  | Tick now => main_loop_iteration now w
  end.

Fixpoint run (inputs : list Input) (w : World) : result World :=
  match inputs with
  | [] => Ok w
  | i :: rest => w' <- step i w ;; run rest w'
  end.

(** *** Shading, orbit lines and clicks *)

(** [clamp8], the helper nested in [shade_color]. *)
Definition clamp8 (x : R) : Z := int_of_float (py_max 0 (py_min 255 x)).

Definition shade_color (hex_color : string) (amount : R) : result string :=
  let hex_color := lstrip_char "#"%char hex_color in
  r <- int16 (slice2 0 hex_color) ;;
  g <- int16 (slice2 2 hex_color) ;;
  b <- int16 (slice2 4 hex_color) ;;
  let '(r, g, b) :=
    if Rlt_dec amount 0
    then
      let factor := 1 + amount in
      (clamp8 (IZR r * factor), clamp8 (IZR g * factor), clamp8 (IZR b * factor))
    else
      (clamp8 (IZR r + (255 - IZR r) * amount),
       clamp8 (IZR g + (255 - IZR g) * amount),
       clamp8 (IZR b + (255 - IZR b) * amount)) in
  Ok (String "#"%char (format_02x r ++ format_02x g ++ format_02x b)%string).

(** The world point that [draw_orbits] plots for a planet at the angle
    [theta] (radians), before the view transform. *)
Definition orbit_point (g : Globals) (p : Planet.t) (theta : R) : result (R * R) :=
  let a_px := au_to_px g (Planet.a p) in
  s <- math_sqrt (1 - Planet.e p * Planet.e p) ;;
  let b_px := a_px * s in
  let x := a_px * math_cos theta in
  let y := b_px * math_sin theta * math_cos (math_radians (Planet.inclination p)) in
  Ok (x, y).

(** The body that a click selects in [on_click].  What [on_click] goes on
    to do with it, building the info text and drawing the panel, is left
    out (for a planet the text builder reads [p.incl], an attribute that
    [Planet] does not set). *)
Inductive Clicked : Type :=
| ClickedPlanet (p : Planet.t)
| ClickedMoon (m : Moon.t)
| ClickedNothing.

Fixpoint click_moons (wx wy : R) (ms : list Moon.t) : option Moon.t :=
  match ms with
  | [] => None
  | m :: rest =>
      let mdist := math_hypot (Moon.curr_x m - wx) (Moon.curr_y m - wy) in
      if Rle_dec mdist (py_max 6 (Moon.radius_px m * 1.5)) then Some m
      else click_moons wx wy rest
  end.

Fixpoint click_planets (wx wy : R) (ps : list Planet.t) : Clicked :=
  match ps with
  | [] => ClickedNothing
  | p :: rest =>
      let dist := math_hypot (Planet.curr_x p - wx) (Planet.curr_y p - wy) in
      let hit_px := Planet.radius_px p * 1.5 in
      if Rle_dec dist hit_px then ClickedPlanet p
      else
        match click_moons wx wy (Planet.moons p) with
        | Some m => ClickedMoon m
        | None => click_planets wx wy rest
        end
  end.

(** The conversion of screen coordinates to world coordinates at the head
    of [on_click]. *)
Definition screen_to_world (g : Globals) (x y : R) : result (R * R) :=
  qx <- float_truediv x (GLOBAL_SCALE g) ;;
  let wx := qx - view_offset_x g in
  qy <- float_truediv y (GLOBAL_SCALE g) ;;
  let wy := qy - view_offset_y g in
  Ok (wx, wy).

(** The hit test of [on_click]: the conversion, then the search. *)
Definition clicked_body (g : Globals) (planets : list Planet.t) (x y : R) : result Clicked :=
  '(wx, wy) <- screen_to_world g x y ;;
  Ok (click_planets wx wy planets).

End GreatestUniverse.

(** ** solar_system.py *)

Module SolarSystem.

Definition SCREEN_WIDTH : R := 1200.
Definition SCREEN_HEIGHT : R := 800.
Definition GLOBAL_SCALE : R := 0.9.
Definition AU_PIXELS : R := 14 * GLOBAL_SCALE.
Definition COMET_TRAIL_LENGTH : nat := 80.
Definition ECCENTRICITY_VISUAL_SCALE : R := 0.8.
Definition INCLINATION_VISUAL_SCALE : R := 0.9.

Definition world_to_screen (x y : R) : R * R := (x, y).

Definition PLANET_SIZE_SCALE : R := 4 * GLOBAL_SCALE.
Definition MIN_PLANET_PIXEL : R := 3.
Definition KEPLER_COMPRESSION : R := 0.9.

Definition kepler_period (a_au : nonnegreal) : result R :=
  float_pow a_au (1.5 * KEPLER_COMPRESSION).

(** [pos] is the position of the moon's turtle, [self.t.position()]. *)
Module Moon.

Record t : Type := mk {
  name : string;
  dist_rel : R;
  size_rel : R;
  period : R;
  angle : R;
  orbit_px : R;
  radius : R;
  pos : R * R
}.

(** The angular speed computed at the head of [update]. *)
Definition angular_speed (self : t) : result R :=
  float_truediv 360 (py_max 1 (period self)).

(** [parent_pos] is [self.parent.t.position()]. *)
Definition update (self : t) (parent_pos : R * R) (dt speed_multiplier : R) : result t :=
  omega <- angular_speed self ;;
  angle' <- float_mod (angle self + omega * speed_multiplier * dt * 60) 360 ;;
  let rad := math_radians angle' in
  let '(px, py) := parent_pos in
  let x := px + math_cos rad * orbit_px self in
  let y := py + math_sin rad * orbit_px self in
  Ok (mk (name self) (dist_rel self) (size_rel self) (period self) angle'
         (orbit_px self) (radius self) (x, y)).

(** [parent_radius] is [parent.radius]; [rand_angle] is the draw
    [random.uniform(0, 360)]; a new turtle sits at the origin. *)
Definition init (name : string) (dist_rel size_rel period_days : R)
    (parent_radius : R) (rand_angle : R) : t :=
  let orbit_px := py_max (parent_radius * 1.6) (dist_rel * AU_PIXELS * 30) in
  let raw_radius := py_max 1.6 (size_rel * 6) in
  mk name dist_rel size_rel period_days rand_angle orbit_px raw_radius (0, 0).

End Moon.

Module Planet.

Record t : Type := mk {
  name : string;
  a : R;
  ecc : R;
  incl : R;
  distance_px : R;
  radius : R;
  angle : R;
  omega : R;
  moons : list Moon.t;
  pos : R * R
}.

(** [orbital_position(angle_deg)]; [None] stands for the default argument,
    which reads [self.angle]. *)
Definition orbital_position (self : t) (angle_deg : option R) : result (R * R) :=
  let angle := match angle_deg with Some d => d | None => angle self end in
  let rad := math_radians angle in
  let a_px := distance_px self in
  let e_vis := py_min 0.9 (ecc self * ECCENTRICITY_VISUAL_SCALE) in
  s <- math_sqrt (py_max 0 (1 - e_vis * e_vis)) ;;
  let b_px := a_px * s in
  let x := a_px * math_cos rad - e_vis * a_px in
  let y := b_px * math_sin rad
           * math_cos (math_radians (incl self * INCLINATION_VISUAL_SCALE)) in
  Ok (x, y).

Definition set_angle_pos (self : t) (ang : R) (p : R * R) : t :=
  mk (name self) (a self) (ecc self) (incl self) (distance_px self) (radius self)
     ang (omega self) (moons self) p.

Definition set_moons (self : t) (ms : list Moon.t) : t :=
  mk (name self) (a self) (ecc self) (incl self) (distance_px self) (radius self)
     (angle self) (omega self) ms (pos self).

(** [show_moons] is the module-level flag [SHOW_MOONS]; hiding a moon only
    hides its turtle. *)
Definition update (show_moons : bool) (self : t) (dt speed_multiplier : R) : result t :=
  ang <- float_mod (angle self + omega self * speed_multiplier * dt * 60) 360 ;;
  let self := set_angle_pos self ang (pos self) in
  xy <- orbital_position self None ;;
  let self := set_angle_pos self (angle self) xy in
  if show_moons
  then
    ms <- for_each (fun m => Moon.update m (pos self) dt speed_multiplier) (moons self) ;;
    Ok (set_moons self ms)
  else Ok self.

(** The moons of [moons_raw], built in order; [rand_moon i] is the draw
    made for the moon of index [i]. *)
Fixpoint build_moons (moons_raw : list (string * R * R * R)) (parent_radius : R)
    (rand_moon : nat -> R) (i : nat) : list Moon.t :=
  match moons_raw with
  | [] => []
  | (mname, dist_rel, size_rel, period_days) :: rest =>
      Moon.init mname dist_rel size_rel period_days parent_radius (rand_moon i)
      :: build_moons rest parent_radius rand_moon (S i)
  end.

(** [__init__] on the fields of a [PlanetData]; the semi-major axis is not
    negative; [rand_angle] is the planet's draw [random.uniform(0, 360)]. *)
Definition init (name : string) (a_au : nonnegreal) (size_rel ecc incl : R)
    (moons_raw : list (string * R * R * R)) (rand_angle : R) (rand_moon : nat -> R)
    : result t :=
  let distance_px := nonneg a_au * AU_PIXELS in
  let raw_radius := py_max MIN_PLANET_PIXEL (size_rel * PLANET_SIZE_SCALE) in
  k <- kepler_period a_au ;;
  omega <- float_truediv 360 (k * 60) ;;
  inv <- float_truediv 1 (py_max 0.1 (nonneg a_au)) ;;
  let omega := omega * (1 + inv) in
  let ms := build_moons moons_raw raw_radius rand_moon 0 in
  Ok (mk name (nonneg a_au) ecc incl distance_px raw_radius rand_angle omega ms (0, 0)).

Definition is_clicked (self : t) (x y : R) : bool :=
  let '(px, py) := pos self in
  if Rle_dec (math_hypot (px - x) (py - y)) (py_max 10 (radius self)) then true else false.

End Planet.

(** [pos] is the position of the comet's turtle. *)
Module Comet.

Record t : Type := mk {
  a : R;
  b : R;
  speed : R;
  alive : bool;
  pos : R * R;
  trail : list (R * R)
}.

Definition destroy (self : t) : t :=
  mk (a self) (b self) (speed self) false (pos self) (trail self).

Definition update (self : t) (dt speed_multiplier : R) : result t :=
  if negb (alive self) then Ok self
  else
    let '(px, py) := pos self in
    let new_x := px + speed self * dt * speed_multiplier in
    q <- float_truediv new_x 80 ;;
    let new_y := math_sin q * (b self * 0.6) in
    let tr := append_bounded COMET_TRAIL_LENGTH (trail self) (new_x, new_y) in
    let self := mk (a self) (b self) (speed self) (alive self) (new_x, new_y) tr in
    if Rlt_dec SCREEN_WIDTH (Rabs new_x) then Ok (destroy self)
    else if Rlt_dec SCREEN_HEIGHT (Rabs new_y) then Ok (destroy self)
    else Ok self.

(** [__init__]; [ra], [rb] and [rs] are the draws [random.uniform(35, 55)],
    [random.uniform(6, 18)] and [random.uniform(120.0, 300.0)]. *)
Definition init (ra rb rs : R) : t :=
  let a := ra * AU_PIXELS in
  let b := rb * AU_PIXELS in
  mk a b rs true (- a, b * 0.6) [].

End Comet.

(** The corner of the popup rectangle computed by [show_info_popup] for
    a planet at [(px, py)]; the rectangle is drawn [box_w] to the right of
    it and [box_h] below it. *)
Definition popup_box_w : R := 220.
Definition popup_box_h : R := 90.
Definition popup_half_w : R := IZR (Zfloor (SCREEN_WIDTH / 2)) - 20.
Definition popup_half_h : R := IZR (Zfloor (SCREEN_HEIGHT / 2)) - 20.

Definition popup_box (px py : R) : R * R :=
  let box_x := px + 20 in
  let box_y := py + 20 in
  let box_x := py_max (- popup_half_w) (py_min (popup_half_w - popup_box_w) box_x) in
  let box_y := py_max (- popup_half_h + popup_box_h) (py_min (popup_half_h - 20) box_y) in
  (box_x, box_y).

(** The first planet that [on_click] opens a popup for. *)
Fixpoint on_click (planets : list Planet.t) (x y : R) : option Planet.t :=
  match planets with
  | [] => None
  | p :: rest => if Planet.is_clicked p x y then Some p else on_click rest x y
  end.

(** The loop over a copy of [active_comets]: a comet that is alive is
    updated in place, one that is not is removed from the list. *)
Fixpoint update_comets (cs : list Comet.t) (dt speed_multiplier : R)
    : result (list Comet.t) :=
  match cs with
  | [] => Ok []
  | c :: rest =>
      if Comet.alive c
      then
        c' <- Comet.update c dt speed_multiplier ;;
        rest' <- update_comets rest dt speed_multiplier ;;
        Ok (c' :: rest')
      else update_comets rest dt speed_multiplier
  end.

End SolarSystem.

(** ** universe.py *)

Module Universe.

Definition SCALE : R := 0.9.
Definition AU_PIXELS : R := 12 * SCALE.
Definition SCREEN_WIDTH : Z := 1000.
Definition SCREEN_HEIGHT : Z := 700.
Definition TIME_STEP : R := 0.5.
Definition PLANET_SIZE_SCALE : R := 3.5 * SCALE.
Definition MIN_PLANET_PIXEL : R := 4.

(** [pos] is the position of the planet's turtle. *)
Module Planet.

Record t : Type := mk {
  name : string;
  distance : R;
  radius : R;
  period : R;
  angle : R;
  pos : R * R
}.

Definition update_position (self : t) (angular_speed_deg : R) : result t :=
  ang <- float_mod (angle self + angular_speed_deg) 360 ;;
  let rad := math_radians ang in
  let x := math_cos rad * distance self in
  let y := math_sin rad * distance self in
  Ok (mk (name self) (distance self) (radius self) (period self) ang (x, y)).

(** [__init__]: the turtle is sent to [(distance, 0)] and the angle
    starts at 0. *)
Definition init (name : string) (distance_au size_rel period_days : R) : t :=
  let distance := distance_au * AU_PIXELS in
  let radius := py_max MIN_PLANET_PIXEL (size_rel * PLANET_SIZE_SCALE) in
  mk name distance radius period_days 0 (distance, 0).

Definition is_clicked (self : t) (x y : R) : bool :=
  let '(px, py) := pos self in
  if Rle_dec (math_hypot (px - x) (py - y)) (py_max 12 (radius self)) then true else false.

End Planet.

Definition EARTH_BASE_FRAMES : R := 360 / TIME_STEP.

(** The orbital period is not negative (a negative one makes [**] return
    a complex number). *)
Definition angular_speed_for_period (period_days : nonnegreal) : result R :=
  let compression := 0.32 in
  num <- float_pow period_days compression ;;
  den <- float_pow (mknonnegreal 365 ltac:(lra)) compression ;;
  q <- float_truediv num den ;;
  let period_frames := q * EARTH_BASE_FRAMES in
  if Rle_dec period_frames 0 then Ok 0.1
  else float_truediv 360 period_frames.

(** The corner of the popup rectangle computed by [show_info_popup]. *)
Definition popup_box_w : R := 180.
Definition popup_box_h : R := 70.
Definition popup_half_w : R := IZR (SCREEN_WIDTH / 2 - 20).
Definition popup_half_h : R := IZR (SCREEN_HEIGHT / 2 - 20).

Definition popup_box (px py : R) : R * R :=
  let box_x := px + 20 in
  let box_y := py + 10 in
  let box_x := py_max (- popup_half_w) (py_min (popup_half_w - popup_box_w) box_x) in
  let box_y := py_max (- popup_half_h + popup_box_h) (py_min (popup_half_h - 20) box_y) in
  (box_x, box_y).

End Universe.

(** ** The position formulas as the specification words them *)

Module Spec.

(** [x mod 1.0]: the fractional part, in [[0, 1)]. *)
Definition mod1 (x : R) : R := x - IZR (Zfloor x).

(** computeOrbitalPosition: fraction, angle in degrees, semi-minor axis,
    the point of the ellipse, and the flattening by the inclination. *)
Definition computeOrbitalPosition
    (orbitalRadius eccentricity period inclination initialPhase : R)
    (simulatedTime : R) : R * R :=
  let fraction := mod1 (simulatedTime / period) in
  let angleDegrees := fraction * 360 + initialPhase in
  let semiMinor := orbitalRadius * sqrt (1 - eccentricity * eccentricity) in
  let x := orbitalRadius * cos (angleDegrees * (PI / 180)) in
  let y := semiMinor * sin (angleDegrees * (PI / 180)) in
  let y := y * cos (inclination * (PI / 180)) in
  (x, y).

(** computeSatellitePosition: the same formula with the moon's parameters,
    offset by the parent's position. *)
Definition computeSatellitePosition
    (orbitalRadius eccentricity period inclination initialPhase : R)
    (parentPosition : R * R) (simulatedTime : R) : R * R :=
  let '(x, y) := computeOrbitalPosition orbitalRadius eccentricity period
                   inclination initialPhase simulatedTime in
  (x + fst parentPosition, y + snd parentPosition).

(** applyViewTransform: (position + panOffset) × zoomScale. *)
Definition applyViewTransform (position panOffset : R * R) (zoomScale : R) : R * R :=
  ((fst position + fst panOffset) * zoomScale,
   (snd position + snd panOffset) * zoomScale).

End Spec.

(** ** Predicates and sample data used in the statements *)

Module Model.

Import GreatestUniverse.

(** The orbital radius of a planet in world units (pixels). *)
Definition orbital_radius (g : Globals) (p : Planet.t) : R := au_to_px g (Planet.a p).

(** The specification's formula at a planet's own parameters. *)
Definition spec_position (g : Globals) (p : Planet.t) (t : R) : R * R :=
  Spec.computeOrbitalPosition (orbital_radius g p) (Planet.e p) (Planet.period_days p)
    (Planet.inclination p) (Planet.angle_deg p) t.

(** The orbital parameters that [Planet.__init__] fixes. *)
Definition orbital_params (p : Planet.t) : R * R * R * R * R :=
  (Planet.a p, Planet.e p, Planet.period_days p, Planet.inclination p, Planet.angle_deg p).

(** The pair [x, y] that a call returns, apart from the updated object. *)
Definition returned_position (r : result (Planet.t * (R * R))) : result (R * R) :=
  '(_, xy) <- r ;; Ok xy.

(** The orbital radius of a moon in world units. *)
Definition moon_radius (parent_radius_px : R) (m : Moon.t) : R :=
  moon_dist_to_pixels (Moon.dist_thousand_km m) parent_radius_px.

(** The parameters fixed by the constructors, as opposed to the position
    and the trail that [draw] rewrites. *)
Definition moon_config (m : Moon.t) : string * (R * R * R * R) * (R * R * R) :=
  (Moon.name m,
   (Moon.dist_thousand_km m, Moon.orbital_period m, Moon.radius_km m, Moon.radius_px m),
   (Moon.ecc m, Moon.incl m, Moon.angle m)).

Definition planet_config (p : Planet.t)
    : string * (R * R * R * R) * (R * R * R * R)
      * list (string * (R * R * R * R) * (R * R * R)) :=
  (Planet.name p,
   (Planet.a p, Planet.e p, Planet.period_days p, Planet.inclination p),
   (Planet.radius_km p, Planet.radius_px p, Planet.angle_deg p, Planet.rotation_hours p),
   map moon_config (Planet.moons p)).

(** The table of bodies of a world. *)
Definition body_table (w : World) := map planet_config (planets w).

Definition moon_trail_bounded (m : Moon.t) : Prop :=
  (length (Moon.trail m) <= MAX_TRAIL_POINTS)%nat.

Definition planet_trails_bounded (p : Planet.t) : Prop :=
  (length (Planet.trail p) <= MAX_TRAIL_POINTS)%nat
  /\ Forall moon_trail_bounded (Planet.moons p).

Definition trails_bounded (w : World) : Prop :=
  Forall planet_trails_bounded (planets w).

(** Bodies on which the arithmetic of [draw] is defined. *)
Definition valid_moon (m : Moon.t) : Prop := Moon.orbital_period m <> 0.

Definition valid_planet (p : Planet.t) : Prop :=
  Planet.period_days p <> 0
  /\ Planet.e p * Planet.e p <= 1
  /\ Forall valid_moon (Planet.moons p).

Definition valid_world (w : World) : Prop :=
  0 < GLOBAL_SCALE (globals w) /\ Forall valid_planet (planets w).


(** What a key handler leaves alone: the bodies and the clock. *)
Definition key_effect (w w' : World) : Prop :=
  planets w' = planets w
  /\ last_time (globals w') = last_time (globals w)
  /\ sim_days (globals w') = sim_days (globals w)
  /\ (0 < TIME_SCALE (globals w) -> 0 < TIME_SCALE (globals w'))
  /\ (0 < GLOBAL_SCALE (globals w) -> 0 < GLOBAL_SCALE (globals w')).

(** Globals with a chosen pan offset and zoom. *)
Definition view (ox oy scale : R) : Globals := set_view (initial_globals 0) ox oy scale.

(** A planet without moons. *)
Definition body (a_au ecc period_days inc_deg phase : R) : Planet.t :=
  Planet.mk "body" a_au ecc period_days 6371 25 phase inc_deg 24 0 0 0 [] [].

(** Orbital radius 100 px at zoom 1, circular, period 365, phase 0. *)
Definition circular_body : Planet.t := body 0.5 0 365 0 0.

(** Eccentricity 1.0. *)
Definition parabolic_body : Planet.t := body 1 1 365 0 0.

(** Orbital period 0. *)
Definition frozen_body : Planet.t := body 1 0 0 0 0.

(** A moon with eccentricity 0.6 at phase 90 degrees, orbital radius 100 px
    around a parent of visual radius 40 px. *)
Definition eccentric_moon : Moon.t :=
  Moon.mk "moon" 0 1 1737 2.5 0.6 0 90 0 0 [].

Definition sample_moon : Moon.t :=
  Moon.mk "Moon" 384.4 27.32 1737.1 10 0.0549 5.145 30 0 0 [].

Definition sample_planet : Planet.t :=
  Planet.mk "Earth" 1 0.0167 365.256 6371 26 0 0 24 0 0 0 [sample_moon] [].

Definition sample_world : World := mkWorld (initial_globals 0) [sample_planet].

(** A session: frames at clock readings 1, 5 and 6, the second one taken
    while paused, the third one at 1.8 times the speed and with trails off. *)
Definition sample_inputs : list Input :=
  [Tick 1; KeySpace; Tick 5; KeySpace; KeyPlus; KeyT; Tick 6; KeyT; KeyZ; KeyLeft].

(** A moon of [solar_system.py] with a chosen orbital period. *)
Definition solar_moon (period : R) : SolarSystem.Moon.t :=
  SolarSystem.Moon.mk "Luna" 0.0026 0.27 period 45 6.4 1.62 (0, 0).

End Model.

(** ** Sample data for the further properties *)

Module Samples.

Import GreatestUniverse.

(** The places of a planet and of its moons after a frame. *)
Definition moon_place (m : Moon.t) : R * R := (Moon.curr_x m, Moon.curr_y m).

Definition planet_places (p : Planet.t) : (R * R) * list (R * R) :=
  ((Planet.curr_x p, Planet.curr_y p), map moon_place (Planet.moons p)).

(** Every trail of a world is empty. *)
Definition trails_empty (w : World) : Prop :=
  Forall (fun p => Planet.trail p = []
                   /\ Forall (fun m => Moon.trail m = []) (Planet.moons p))
         (planets w).

(** The screen position that [Planet.draw] sends the planet's turtle to. *)
Definition planet_screen (g : Globals) (p : Planet.t) (t : R) : result (R * R) :=
  '(_, (x, y)) <- Planet.compute_orbital_position g p t ;;
  Ok (CelestialBody.world_to_screen g x y).

(** A channel of a colour. *)
Definition channel (c : Z) : Prop := (0 <= c <= 255)%Z.

Definition colour (rgb : Z * Z * Z) : Prop :=
  let '(r, g, b) := rgb in channel r /\ channel g /\ channel b.

(** The channel that [shade_color] computes from a channel [c]. *)
Definition shade_channel (c : Z) (amount : R) : Z :=
  if Rlt_dec amount 0
  then clamp8 (IZR c * (1 + amount))
  else clamp8 (IZR c + (255 - IZR c) * amount).

(** Earth and Mars of [solar_system.py]. *)
Definition earth_a : nonnegreal := mknonnegreal 1 ltac:(lra).
Definition mars_a : nonnegreal := mknonnegreal 1.52 ltac:(lra).
Definition no_distance : nonnegreal := mknonnegreal 0 ltac:(lra).

Definition earth_days : nonnegreal := mknonnegreal 365 ltac:(lra).
Definition mars_days : nonnegreal := mknonnegreal 687 ltac:(lra).

Definition luna_raw : string * R * R * R := ("Luna"%string, 0.0026, 0.27, 27.3).

Definition sample_comet : SolarSystem.Comet.t := SolarSystem.Comet.init 40 10 200.

(** Mercury of [solar_system.py], with its turtle at the origin. *)
Definition sample_solar_planet : SolarSystem.Planet.t :=
  SolarSystem.Planet.mk "Mercury" 0.39 0.205 7 4.914 3 0 1 [] (0, 0).

Definition sample_universe_planet : Universe.Planet.t :=
  Universe.Planet.init "Earth" 1 1 365.

End Samples.

(** ** Facts about the float operations *)

Section FloatFacts.

Lemma float_truediv_ok x y : y <> 0 -> float_truediv x y = Ok (x / y).
Proof.
  intros Hy. unfold float_truediv. destruct (Req_dec_T y 0); [contradiction | reflexivity].
Qed.

Lemma float_truediv_zero x : float_truediv x 0 = Raise ZeroDivisionError.
Proof.
  unfold float_truediv. destruct (Req_dec_T 0 0); [reflexivity | congruence].
Qed.

Lemma float_mod_ok x y : y <> 0 -> float_mod x y = Ok (x - y * IZR (Zfloor (x / y))).
Proof.
  intros Hy. unfold float_mod. destruct (Req_dec_T y 0); [contradiction | reflexivity].
Qed.

Lemma float_mod_1 x : float_mod x 1 = Ok (x - IZR (Zfloor x)).
Proof.
  rewrite float_mod_ok by lra. f_equal. replace (x / 1) with x by field. ring.
Qed.

Lemma Zfloor_add_IZR x (k : Z) : Zfloor (x + IZR k) = (Zfloor x + k)%Z.
Proof.
  apply Zfloor_eq. rewrite plus_IZR.
  pose proof (Zfloor_bound x) as [Hlo Hhi]. lra.
Qed.

Lemma Zfloor_unit x : 0 <= x < 1 -> Zfloor x = 0%Z.
Proof.
  intros H. apply Zfloor_eq. simpl. lra.
Qed.

Lemma float_mod_1_range x r : float_mod x 1 = Ok r -> 0 <= r < 1.
Proof.
  rewrite float_mod_1. intros E. injection E as <-.
  pose proof (Zfloor_bound x). lra.
Qed.

Lemma math_sqrt_ok x : 0 <= x -> math_sqrt x = Ok (sqrt x).
Proof.
  intros Hx. unfold math_sqrt. destruct (Rlt_dec x 0); [lra | reflexivity].
Qed.

Lemma math_sqrt_neg x : x < 0 -> math_sqrt x = Raise ValueError.
Proof.
  intros Hx. unfold math_sqrt. destruct (Rlt_dec x 0); [reflexivity | contradiction].
Qed.

Lemma py_max_ge_l a b : a <= py_max a b.
Proof. unfold py_max. destruct (Rlt_dec a b); lra. Qed.

Lemma py_max_le a b : b <= a -> py_max a b = a.
Proof. intros H. unfold py_max. destruct (Rlt_dec a b); lra. Qed.

Lemma math_radians_90 : math_radians 90 = PI / 2.
Proof. unfold math_radians. field. Qed.

Lemma math_radians_0 : math_radians 0 = 0.
Proof. unfold math_radians. field. Qed.

End FloatFacts.

Section BoundedQueue.

Context {A : Type}.

Lemma append_bounded_length (bound : nat) (trail : list A) (pt : A) :
  (length trail <= bound)%nat ->
  (length (append_bounded bound trail pt) <= bound)%nat.
Proof.
  intros Hlen. unfold append_bounded, pop0.
  destruct (Nat.ltb_spec bound (length (trail ++ [pt]))) as [Hgt | Hle].
  - destruct (trail ++ [pt]) eqn:E; simpl in *; [lia |].
    assert (Hl : length (trail ++ [pt]) = S (length l)) by (rewrite E; reflexivity).
    rewrite length_app in Hl. simpl in Hl. lia.
  - exact Hle.
Qed.

Lemma append_bounded_room (bound : nat) (trail : list A) (pt : A) :
  (length trail < bound)%nat ->
  append_bounded bound trail pt = trail ++ [pt].
Proof.
  intros Hlen. unfold append_bounded.
  destruct (Nat.ltb_spec bound (length (trail ++ [pt]))) as [Hgt | Hle]; [| reflexivity].
  rewrite length_app in Hgt. simpl in Hgt. lia.
Qed.

Lemma append_bounded_full (bound : nat) (oldest : A) (rest : list A) (pt : A) :
  length (oldest :: rest) = bound ->
  append_bounded bound (oldest :: rest) pt = rest ++ [pt].
Proof.
  intros Hlen. unfold append_bounded, pop0.
  destruct (Nat.ltb_spec bound (length ((oldest :: rest) ++ [pt]))) as [Hgt | Hle].
  - reflexivity.
  - rewrite length_app in Hle. simpl in *. lia.
Qed.

End BoundedQueue.

Example append_bounded_keeps :
  append_bounded 3 [(1, 1); (2, 2)] (3, 3) = [(1, 1); (2, 2); (3, 3)].
Proof. reflexivity. Qed.

Example append_bounded_drops_oldest :
  append_bounded 3 [(1, 1); (2, 2); (3, 3)] (4, 4) = [(2, 2); (3, 3); (4, 4)].
Proof. reflexivity. Qed.

(** ** Sequencing and traversal in the error monad *)

Section Traversal.

Context {A : Type}.
Variable f : A -> result A.

Lemma bind_Ok_inv {B C : Type} (m : result B) (k : B -> result C) (c : C) :
  bind m k = Ok c -> exists b, m = Ok b /\ k b = Ok c.
Proof.
  destruct m as [b | err]; simpl; intros H; [| discriminate].
  exists b. split; [reflexivity | exact H].
Qed.

Lemma for_each_Forall2 (xs ys : list A) :
  for_each f xs = Ok ys -> Forall2 (fun x y => f x = Ok y) xs ys.
Proof.
  revert ys. induction xs as [| x rest IH]; simpl; intros ys H.
  - injection H as <-. constructor.
  - apply bind_Ok_inv in H as [x' [Hx H]].
    apply bind_Ok_inv in H as [rest' [Hrest H]].
    injection H as <-. constructor; [exact Hx | apply IH; exact Hrest].
Qed.

Lemma for_each_returns (xs : list A) :
  Forall (fun x => returns (f x)) xs -> returns (for_each f xs).
Proof.
  induction 1 as [| x rest [x' Hx] _ [rest' Hrest]]; simpl.
  - eexists. reflexivity.
  - rewrite Hx. cbn [bind]. rewrite Hrest. cbn [bind]. eexists. reflexivity.
Qed.

Lemma Forall2_map_eq {B : Type} (h : A -> B) (xs ys : list A) :
  Forall2 (fun x y => h y = h x) xs ys -> map h ys = map h xs.
Proof.
  induction 1 as [| x y xs' ys' Hxy _ IH]; simpl; [reflexivity |].
  rewrite Hxy, IH. reflexivity.
Qed.

Lemma Forall2_Forall_r (P : A -> Prop) (Q : A -> A -> Prop) (xs ys : list A) :
  Forall2 Q xs ys ->
  Forall (fun x => forall y, Q x y -> P y) xs ->
  Forall P ys.
Proof.
  induction 1 as [| x y xs' ys' Hxy _ IH]; intros Hall; [constructor |].
  inversion Hall as [| ? ? Hx Hrest]; subst.
  constructor; [apply Hx; exact Hxy | apply IH; exact Hrest].
Qed.

Lemma map_eq_Forall {B : Type} (h : A -> B) (P : A -> Prop) :
  (forall x y, h y = h x -> P x -> P y) ->
  forall xs ys, map h ys = map h xs -> Forall P xs -> Forall P ys.
Proof.
  intros Hh xs. induction xs as [| x xs' IH]; intros ys Hmap Hall.
  - destruct ys; [constructor | discriminate].
  - destruct ys as [| y ys']; [discriminate |].
    simpl in Hmap. injection Hmap as Hy Hys.
    inversion Hall as [| ? ? Hx Hxs]; subst.
    constructor; [eapply Hh; eassumption | apply IH; assumption].
Qed.

End Traversal.

(** ** The orbital position of a planet *)

Section OrbitalPosition.

Import GreatestUniverse Model.

Variable g : Globals.

Lemma compute_orbital_position_ok (p : Planet.t) (t : R) :
  Planet.period_days p <> 0 ->
  Planet.e p * Planet.e p <= 1 ->
  Planet.compute_orbital_position g p t =
    Ok (Planet.set_curr p (fst (spec_position g p t)) (snd (spec_position g p t)),
        spec_position g p t).
Proof.
  intros Hper Hecc. unfold Planet.compute_orbital_position.
  rewrite float_truediv_ok by assumption. cbn [bind].
  rewrite float_mod_1. cbn [bind].
  rewrite math_sqrt_ok by lra. cbn [bind].
  reflexivity.
Qed.

Lemma compute_orbital_position_zero_period (p : Planet.t) (t : R) :
  Planet.period_days p = 0 ->
  Planet.compute_orbital_position g p t = Raise ZeroDivisionError.
Proof.
  intros Hper. unfold Planet.compute_orbital_position.
  rewrite Hper, float_truediv_zero. reflexivity.
Qed.

Lemma compute_orbital_position_hyperbolic (p : Planet.t) (t : R) :
  Planet.period_days p <> 0 ->
  1 < Planet.e p * Planet.e p ->
  Planet.compute_orbital_position g p t = Raise ValueError.
Proof.
  intros Hper Hecc. unfold Planet.compute_orbital_position.
  rewrite float_truediv_ok by assumption. cbn [bind].
  rewrite float_mod_1. cbn [bind].
  rewrite math_sqrt_neg by lra. reflexivity.
Qed.

Lemma ecc_unit_interval (ecc : R) : 0 <= ecc < 1 -> ecc * ecc <= 1.
Proof. intros H. nra. Qed.


Lemma mod1_unit (x : R) : 0 <= x < 1 -> Spec.mod1 x = x.
Proof.
  intros H. unfold Spec.mod1. rewrite Zfloor_unit by assumption. simpl. ring.
Qed.


End OrbitalPosition.

Section OrbitalPositionClaims.

Import GreatestUniverse Model.

Lemma spec_position_params (g1 g2 : Globals) (p1 p2 : Planet.t) (t : R) :
  GLOBAL_SCALE g1 = GLOBAL_SCALE g2 ->
  orbital_params p1 = orbital_params p2 ->
  spec_position g1 p1 t = spec_position g2 p2 t.
Proof.
  intros Hs Hp. unfold orbital_params in Hp. injection Hp as Ha He Hper Hinc Hang.
  unfold spec_position, orbital_radius, au_to_px.
  rewrite Hs, Ha, He, Hper, Hinc, Hang. reflexivity.
Qed.

Lemma spec_position_circular_start (s : R) :
  spec_position (view 0 0 s) circular_body 0 = (100 * s, 0).
Proof.
  unfold spec_position, Spec.computeOrbitalPosition, orbital_radius, au_to_px,
    AU_TO_PIXELS. simpl.
  replace (0 / 365) with 0 by lra.
  rewrite mod1_unit by lra.
  replace ((0 * 360 + 0) * (PI / 180)) with 0 by lra.
  rewrite cos_0, sin_0. f_equal; nra.
Qed.

Lemma spec_position_circular_quarter :
  spec_position (view 0 0 1) circular_body 91.25 = (0, 100).
Proof.
  unfold spec_position, Spec.computeOrbitalPosition, orbital_radius, au_to_px,
    AU_TO_PIXELS. simpl.
  replace (91.25 / 365) with 0.25 by lra.
  rewrite mod1_unit by lra.
  replace ((0.25 * 360 + 0) * (PI / 180)) with (PI / 2) by lra.
  replace (1 - 0 * 0) with 1 by lra.
  replace (0 * (PI / 180)) with 0 by lra.
  rewrite cos_PI2, sin_PI2, cos_0, sqrt_1. f_equal; lra.
Qed.

(** C1, as the code has it: an orbital period of 0 makes
    [compute_orbital_position] fail with [ZeroDivisionError]; an eccentricity
    of 1.0 (with a non-zero period) makes it return a position, whose [y] is
    0; for an eccentricity in [[0, 1)] and a positive period it returns. *)
Theorem compute_orbital_position_failure_modes (g : Globals) (p : Planet.t) (t : R) :
  (Planet.period_days p = 0 ->
   Planet.compute_orbital_position g p t = Raise ZeroDivisionError)
  /\ (Planet.period_days p <> 0 -> Planet.e p = 1 ->
      exists x, Planet.compute_orbital_position g p t
                = Ok (Planet.set_curr p x 0, (x, 0)))
  /\ (0 <= Planet.e p < 1 -> 0 < Planet.period_days p ->
      returns (Planet.compute_orbital_position g p t)).
Proof.
  split; [| split].
  - apply compute_orbital_position_zero_period.
  - intros Hper He.
    rewrite compute_orbital_position_ok by (try assumption; rewrite He; lra).
    exists (fst (spec_position g p t)).
    assert (Hy : snd (spec_position g p t) = 0).
    { unfold spec_position, Spec.computeOrbitalPosition. simpl.
      rewrite He. replace (1 - 1 * 1) with 0 by ring. rewrite sqrt_0. ring. }
    rewrite (surjective_pairing (spec_position g p t)) at 3.
    rewrite Hy. reflexivity.
  - intros He Hper.
    rewrite compute_orbital_position_ok by (try apply ecc_unit_interval; lra).
    eexists. reflexivity.
Qed.

Lemma compute_orbital_position_failure_modes_witness :
  Planet.compute_orbital_position (view 0 0 1) frozen_body 0 = Raise ZeroDivisionError
  /\ (exists x, Planet.compute_orbital_position (view 0 0 1) parabolic_body 0
                = Ok (Planet.set_curr parabolic_body x 0, (x, 0)))
  /\ returns (Planet.compute_orbital_position (view 0 0 1) circular_body 0).
Proof.
  split; [| split].
  - apply (proj1 (compute_orbital_position_failure_modes (view 0 0 1) frozen_body 0)).
    reflexivity.
  - apply (proj1 (proj2 (compute_orbital_position_failure_modes
                           (view 0 0 1) parabolic_body 0))).
    + simpl. lra.
    + reflexivity.
  - apply (proj2 (proj2 (compute_orbital_position_failure_modes
                           (view 0 0 1) circular_body 0))).
    + simpl. lra.
    + simpl. lra.
Defined.

(** C1 as stated fails: a body of eccentricity 1.0 gets a position, no
    exception is raised. *)
Lemma parabolic_body_gets_position :
  Planet.e parabolic_body = 1
  /\ returns (Planet.compute_orbital_position (view 0 0 1) parabolic_body 0)
  /\ ~ raises (Planet.compute_orbital_position (view 0 0 1) parabolic_body 0).
Proof.
  assert (H : returns (Planet.compute_orbital_position (view 0 0 1) parabolic_body 0)).
  { rewrite compute_orbital_position_ok by (simpl; lra). eexists. reflexivity. }
  split; [reflexivity | split; [exact H |]].
  destruct H as [r Hr]. intros [err Herr]. rewrite Hr in Herr. discriminate.
Qed.

(** C2, as the code has it: the returned position is determined by the
    body's orbital parameters, the simulated time and the zoom factor
    [GLOBAL_SCALE], which [au_to_px] multiplies in; no other global (pan
    offset, time scale, flags, clock) and no other attribute of the body
    (last position, trail, rotation) enters it. *)
Theorem compute_orbital_position_determined
    (g1 g2 : Globals) (p1 p2 : Planet.t) (t : R) :
  GLOBAL_SCALE g1 = GLOBAL_SCALE g2 ->
  orbital_params p1 = orbital_params p2 ->
  returned_position (Planet.compute_orbital_position g1 p1 t)
  = returned_position (Planet.compute_orbital_position g2 p2 t).
Proof.
  intros Hs Hp.
  assert (Hparams := Hp). unfold orbital_params in Hp.
  injection Hp as Ha He Hper Hinc Hang.
  destruct (Req_dec_T (Planet.period_days p1) 0) as [Hz | Hnz].
  - rewrite !compute_orbital_position_zero_period by congruence. reflexivity.
  - destruct (Rle_lt_dec (Planet.e p1 * Planet.e p1) 1) as [Hle | Hgt].
    + rewrite !compute_orbital_position_ok by (try congruence; rewrite <- ?He; lra).
      simpl. f_equal. apply spec_position_params; assumption.
    + rewrite !compute_orbital_position_hyperbolic
        by (try congruence; rewrite <- ?He; lra).
      reflexivity.
Qed.

Lemma compute_orbital_position_determined_witness :
  returned_position (Planet.compute_orbital_position (view 0 0 1) circular_body 7)
  = returned_position (Planet.compute_orbital_position (view 40 (-80) 1)
                         (Planet.set_curr circular_body 3 4) 7).
Proof.
  apply compute_orbital_position_determined; reflexivity.
Defined.

(** C2 as stated fails: the same body at the same simulated time is placed
    at x = 100 under zoom 1 and at x = 200 under zoom 2. *)
Lemma zoom_changes_orbital_position :
  returned_position (Planet.compute_orbital_position (view 0 0 1) circular_body 0)
    = Ok (100, 0)
  /\ returned_position (Planet.compute_orbital_position (view 0 0 2) circular_body 0)
    = Ok (200, 0)
  /\ returned_position (Planet.compute_orbital_position (view 0 0 1) circular_body 0)
     <> returned_position (Planet.compute_orbital_position (view 0 0 2) circular_body 0).
Proof.
  assert (H1 : returned_position
                 (Planet.compute_orbital_position (view 0 0 1) circular_body 0)
               = Ok (100, 0)).
  { rewrite compute_orbital_position_ok by (simpl; lra). simpl.
    rewrite spec_position_circular_start. do 2 f_equal. lra. }
  assert (H2 : returned_position
                 (Planet.compute_orbital_position (view 0 0 2) circular_body 0)
               = Ok (200, 0)).
  { rewrite compute_orbital_position_ok by (simpl; lra). simpl.
    rewrite spec_position_circular_start. do 2 f_equal. lra. }
  split; [exact H1 | split; [exact H2 |]].
  rewrite H1, H2. intros E. injection E as E. lra.
Qed.

(** C3: for a positive period and an eccentricity in [[0, 1)],
    [compute_orbital_position] returns x = r cos(angle) and
    y = r sqrt(1 - e^2) sin(angle) cos(inclination), where r is the orbital
    radius in world units and angle = ((t / period) mod 1) 360 + the initial
    phase, in degrees. *)
Theorem compute_orbital_position_formula (g : Globals) (p : Planet.t) (t : R) :
  0 < Planet.period_days p ->
  0 <= Planet.e p < 1 ->
  let angle := Spec.mod1 (t / Planet.period_days p) * 360 + Planet.angle_deg p in
  let x := orbital_radius g p * cos (math_radians angle) in
  let y := orbital_radius g p * sqrt (1 - Planet.e p * Planet.e p)
           * sin (math_radians angle) * cos (math_radians (Planet.inclination p)) in
  Planet.compute_orbital_position g p t = Ok (Planet.set_curr p x y, (x, y)).
Proof.
  intros Hper He angle x y.
  rewrite compute_orbital_position_ok by (try apply ecc_unit_interval; lra).
  reflexivity.
Qed.

Lemma compute_orbital_position_formula_witness :
  Planet.compute_orbital_position (initial_globals 0) sample_planet 100
  = Ok (Planet.set_curr sample_planet
          (orbital_radius (initial_globals 0) sample_planet
           * cos (math_radians (Spec.mod1 (100 / 365.256) * 360 + 0)))
          (orbital_radius (initial_globals 0) sample_planet
           * sqrt (1 - 0.0167 * 0.0167)
           * sin (math_radians (Spec.mod1 (100 / 365.256) * 360 + 0))
           * cos (math_radians 0)),
        (orbital_radius (initial_globals 0) sample_planet
           * cos (math_radians (Spec.mod1 (100 / 365.256) * 360 + 0)),
         orbital_radius (initial_globals 0) sample_planet
           * sqrt (1 - 0.0167 * 0.0167)
           * sin (math_radians (Spec.mod1 (100 / 365.256) * 360 + 0))
           * cos (math_radians 0))).
Proof.
  apply (compute_orbital_position_formula (initial_globals 0) sample_planet 100).
  - simpl. lra.
  - simpl. lra.
Defined.



End OrbitalPositionClaims.

(** ** Moons, the view transform and circular orbits *)

Section SatelliteAndView.

Import GreatestUniverse Model.

Lemma moon_position_ok (m : Moon.t) (parent_radius_px t px py : R) :
  Moon.orbital_period m <> 0 ->
  let rad := math_radians (Spec.mod1 (t / Moon.orbital_period m) * 360 + Moon.angle m) in
  Moon.position m parent_radius_px t px py
  = Ok (px + moon_radius parent_radius_px m * cos rad,
        py + moon_radius parent_radius_px m * sin rad
             * cos (math_radians (Moon.incl m))).
Proof.
  intros Hper rad. unfold Moon.position.
  rewrite float_truediv_ok by assumption. cbn [bind].
  rewrite float_mod_1. cbn [bind]. reflexivity.
Qed.

Lemma moon_position_zero_period (m : Moon.t) (parent_radius_px t px py : R) :
  Moon.orbital_period m = 0 ->
  Moon.position m parent_radius_px t px py = Raise ZeroDivisionError.
Proof.
  intros Hper. unfold Moon.position. rewrite Hper, float_truediv_zero. reflexivity.
Qed.

(** C5, as the code has it: the position of a moon is the parent position
    plus the point of a circle of the moon's own orbital radius, flattened
    by the moon's inclination, at the angle given by the moon's period and
    initial angle; that is the orbital formula at eccentricity 0, the moon's
    stored eccentricity is not read.  The result minus the parent position
    does not depend on the parent position. *)
Theorem moon_position_circle_plus_parent
    (m : Moon.t) (parent_radius_px t px py : R) :
  Moon.orbital_period m <> 0 ->
  Moon.position m parent_radius_px t px py
  = Ok (Spec.computeSatellitePosition (moon_radius parent_radius_px m) 0
          (Moon.orbital_period m) (Moon.incl m) (Moon.angle m) (px, py) t)
  /\ exists x0 y0,
       Moon.position m parent_radius_px t 0 0 = Ok (x0, y0)
       /\ Moon.position m parent_radius_px t px py = Ok (x0 + px, y0 + py).
Proof.
  intros Hper. rewrite !moon_position_ok by assumption. split.
  - unfold Spec.computeSatellitePosition, Spec.computeOrbitalPosition, math_radians.
    cbn [fst snd]. replace (1 - 0 * 0) with 1 by ring. rewrite sqrt_1.
    do 2 f_equal; ring.
  - do 2 eexists. split; [reflexivity |]. do 2 f_equal; ring.
Qed.

Lemma moon_position_circle_plus_parent_witness :
  Moon.position sample_moon 26 10 50 50
  = Ok (Spec.computeSatellitePosition (moon_radius 26 sample_moon) 0
          27.32 5.145 30 (50, 50) 10)
  /\ exists x0 y0,
       Moon.position sample_moon 26 10 0 0 = Ok (x0, y0)
       /\ Moon.position sample_moon 26 10 50 50 = Ok (x0 + 50, y0 + 50).
Proof.
  apply (moon_position_circle_plus_parent sample_moon 26 10 50 50).
  simpl. lra.
Defined.

(** C5 as stated fails: a moon of eccentricity 0.6 and orbital radius 100,
    a quarter turn from the x axis, is put 100 above its parent, where the
    orbital formula at the moon's own eccentricity gives 80. *)
Lemma moon_eccentricity_not_applied :
  Moon.position eccentric_moon 40 0 0 0 = Ok (0, 100)
  /\ Spec.computeSatellitePosition (moon_radius 40 eccentric_moon)
       (Moon.ecc eccentric_moon) (Moon.orbital_period eccentric_moon)
       (Moon.incl eccentric_moon) (Moon.angle eccentric_moon) (0, 0) 0 = (0, 80)
  /\ Moon.position eccentric_moon 40 0 0 0
     <> Ok (Spec.computeSatellitePosition (moon_radius 40 eccentric_moon)
              (Moon.ecc eccentric_moon) (Moon.orbital_period eccentric_moon)
              (Moon.incl eccentric_moon) (Moon.angle eccentric_moon) (0, 0) 0).
Proof.
  assert (Hangle : (Spec.mod1 (0 / 1) * 360 + 90) * (PI / 180) = PI / 2).
  { replace (0 / 1) with 0 by lra. rewrite mod1_unit by lra. lra. }
  assert (Hcode : Moon.position eccentric_moon 40 0 0 0 = Ok (0, 100)).
  { rewrite moon_position_ok by (simpl; lra).
    unfold moon_radius, moon_dist_to_pixels, math_radians. simpl.
    rewrite Hangle. replace (0 * (PI / 180)) with 0 by lra.
    rewrite cos_PI2, sin_PI2, cos_0. do 2 f_equal; lra. }
  assert (Hspec : Spec.computeSatellitePosition (moon_radius 40 eccentric_moon)
            (Moon.ecc eccentric_moon) (Moon.orbital_period eccentric_moon)
            (Moon.incl eccentric_moon) (Moon.angle eccentric_moon) (0, 0) 0 = (0, 80)).
  { unfold Spec.computeSatellitePosition, Spec.computeOrbitalPosition,
      moon_radius, moon_dist_to_pixels. simpl.
    rewrite Hangle. replace (0 * (PI / 180)) with 0 by lra.
    replace (1 - 0.6 * 0.6) with (0.8 * 0.8) by lra.
    rewrite sqrt_square by lra.
    rewrite cos_PI2, sin_PI2, cos_0. f_equal; lra. }
  split; [exact Hcode | split; [exact Hspec |]].
  rewrite Hcode, Hspec. intros E. injection E as E. lra.
Qed.

(** C6: for a positive zoom, [world_to_screen] returns
    (position + pan offset) × zoom in each component; it is a total function
    without an error result; (10, 20) under pan (5, 5) and zoom 2 goes to
    (30, 50). *)
Theorem world_to_screen_pan_then_zoom (g : Globals) (x y : R) :
  0 < GLOBAL_SCALE g ->
  CelestialBody.world_to_screen g x y
  = ((x + view_offset_x g) * GLOBAL_SCALE g, (y + view_offset_y g) * GLOBAL_SCALE g)
  /\ CelestialBody.world_to_screen g x y
     = Spec.applyViewTransform (x, y) (view_offset_x g, view_offset_y g) (GLOBAL_SCALE g)
  /\ CelestialBody.world_to_screen (view 5 5 2) 10 20 = (30, 50).
Proof.
  intros _. split; [reflexivity | split; [reflexivity |]].
  unfold CelestialBody.world_to_screen. simpl. f_equal; lra.
Qed.

Lemma world_to_screen_pan_then_zoom_witness :
  CelestialBody.world_to_screen (view 5 5 2) 10 20 = ((10 + 5) * 2, (20 + 5) * 2)
  /\ CelestialBody.world_to_screen (view 5 5 2) 10 20
     = Spec.applyViewTransform (10, 20) (5, 5) 2
  /\ CelestialBody.world_to_screen (view 5 5 2) 10 20 = (30, 50).
Proof.
  apply (world_to_screen_pan_then_zoom (view 5 5 2) 10 20).
  simpl. lra.
Defined.

Lemma circle_distance (r c s : R) :
  0 <= r -> s * s + c * c = 1 -> sqrt ((r * c) * (r * c) + (r * s) * (r * s)) = r.
Proof.
  intros Hr Hcs.
  replace ((r * c) * (r * c) + (r * s) * (r * s)) with (r * r) by nra.
  apply sqrt_square. exact Hr.
Qed.

Lemma sin_cos_unit (x : R) : sin x * sin x + cos x * cos x = 1.
Proof. pose proof (sin2_cos2 x) as H. unfold Rsqr in H. exact H. Qed.

(** C7: for eccentricity 0 and inclination 0 the computed position lies on
    the circle of the orbital radius around the origin; a body of orbital
    radius 100, period 365 and phase 0 is at (100, 0) at t = 0 and at
    (0, 100) at t = 91.25.  The circular orbit of [universe.py] has the
    same property around its distance. *)
Theorem circular_orbit_on_circle :
  (forall (g : Globals) (p : Planet.t) (t : R),
      Planet.e p = 0 -> Planet.inclination p = 0 ->
      0 < Planet.period_days p -> 0 <= orbital_radius g p ->
      exists x y,
        returned_position (Planet.compute_orbital_position g p t) = Ok (x, y)
        /\ sqrt (x * x + y * y) = orbital_radius g p)
  /\ orbital_radius (view 0 0 1) circular_body = 100
  /\ returned_position (Planet.compute_orbital_position (view 0 0 1) circular_body 0)
     = Ok (100, 0)
  /\ returned_position (Planet.compute_orbital_position (view 0 0 1) circular_body 91.25)
     = Ok (0, 100)
  /\ (forall (q q' : Universe.Planet.t) (speed : R),
        0 <= Universe.Planet.distance q ->
        Universe.Planet.update_position q speed = Ok q' ->
        sqrt (fst (Universe.Planet.pos q') * fst (Universe.Planet.pos q')
              + snd (Universe.Planet.pos q') * snd (Universe.Planet.pos q'))
        = Universe.Planet.distance q).
Proof.
  split; [| split; [| split; [| split]]].
  - intros g p t He Hinc Hper Hr.
    rewrite compute_orbital_position_ok by (rewrite ?He; lra).
    do 2 eexists. split; [reflexivity |].
    unfold spec_position, Spec.computeOrbitalPosition. cbn [fst snd].
    rewrite He, Hinc.
    replace (1 - 0 * 0) with 1 by ring. rewrite sqrt_1.
    replace (0 * (PI / 180)) with 0 by ring. rewrite cos_0.
    rewrite !Rmult_1_r.
    apply circle_distance; [exact Hr | apply sin_cos_unit].
  - unfold orbital_radius, au_to_px, AU_TO_PIXELS. simpl. lra.
  - rewrite compute_orbital_position_ok by (simpl; lra). simpl.
    rewrite spec_position_circular_start. do 2 f_equal. lra.
  - rewrite compute_orbital_position_ok by (simpl; lra). simpl.
    rewrite spec_position_circular_quarter. reflexivity.
  - intros q q' speed Hd Hup. unfold Universe.Planet.update_position in Hup.
    rewrite float_mod_ok in Hup by lra. cbn [bind] in Hup.
    injection Hup as <-. cbn [Universe.Planet.pos fst snd].
    unfold math_cos, math_sin.
    rewrite (Rmult_comm (cos _)), (Rmult_comm (sin _)).
    apply circle_distance; [exact Hd | apply sin_cos_unit].
Qed.

Lemma circular_orbit_on_circle_witness :
  exists x y,
    returned_position (Planet.compute_orbital_position (view 0 0 1) circular_body 40)
    = Ok (x, y)
    /\ sqrt (x * x + y * y) = orbital_radius (view 0 0 1) circular_body.
Proof.
  apply (proj1 circular_orbit_on_circle (view 0 0 1) circular_body 40).
  - reflexivity.
  - reflexivity.
  - simpl. lra.
  - unfold orbital_radius, au_to_px, AU_TO_PIXELS. simpl. lra.
Defined.

End SatelliteAndView.

(** ** The moons of solar_system.py *)

Section SolarMoon.

Import Model.

(** [orbital_position] of [solar_system.py] is driven by the stored angle,
    not by a time; it exaggerates and caps the eccentricity and shifts the
    ellipse by the focal distance. *)
Lemma solar_orbital_position_formula (p : SolarSystem.Planet.t) (d : R) :
  let e_vis := py_min 0.9 (SolarSystem.Planet.ecc p * SolarSystem.ECCENTRICITY_VISUAL_SCALE) in
  let a_px := SolarSystem.Planet.distance_px p in
  SolarSystem.Planet.orbital_position p (Some d)
  = Ok (a_px * cos (math_radians d) - e_vis * a_px,
        a_px * sqrt (py_max 0 (1 - e_vis * e_vis)) * sin (math_radians d)
        * cos (math_radians (SolarSystem.Planet.incl p
                             * SolarSystem.INCLINATION_VISUAL_SCALE))).
Proof.
  intros e_vis a_px. unfold SolarSystem.Planet.orbital_position.
  rewrite math_sqrt_ok by apply py_max_ge_l. reflexivity.
Qed.

(** A moon of [solar_system.py] sits on the circle of radius [orbit_px]
    around its parent's position. *)
Lemma solar_moon_update_position
    (m m' : SolarSystem.Moon.t) (px py dt speed_multiplier : R) :
  SolarSystem.Moon.update m (px, py) dt speed_multiplier = Ok m' ->
  SolarSystem.Moon.pos m'
  = (px + cos (math_radians (SolarSystem.Moon.angle m')) * SolarSystem.Moon.orbit_px m,
     py + sin (math_radians (SolarSystem.Moon.angle m')) * SolarSystem.Moon.orbit_px m).
Proof.
  unfold SolarSystem.Moon.update. intros H.
  apply bind_Ok_inv in H as [omega [_ H]].
  apply bind_Ok_inv in H as [ang [_ H]].
  injection H as <-. reflexivity.
Qed.

(** C10: [Moon.update] of [solar_system.py] returns for every orbital
    period, zero and negative ones included, because the divisor is
    [max(1.0, period)]; every period up to 1 gives the angular speed 360. *)
Theorem solar_moon_update_total
    (m : SolarSystem.Moon.t) (parent_pos : R * R) (dt speed_multiplier : R) :
  returns (SolarSystem.Moon.update m parent_pos dt speed_multiplier)
  /\ SolarSystem.Moon.angular_speed m
     = Ok (360 / py_max 1 (SolarSystem.Moon.period m))
  /\ 1 <= py_max 1 (SolarSystem.Moon.period m)
  /\ (SolarSystem.Moon.period m <= 1 -> SolarSystem.Moon.angular_speed m = Ok 360).
Proof.
  pose proof (py_max_ge_l 1 (SolarSystem.Moon.period m)) as Hge.
  assert (Hspeed : SolarSystem.Moon.angular_speed m
                   = Ok (360 / py_max 1 (SolarSystem.Moon.period m))).
  { unfold SolarSystem.Moon.angular_speed. apply float_truediv_ok. lra. }
  split; [| split; [exact Hspeed | split; [exact Hge |]]].
  - unfold SolarSystem.Moon.update. rewrite Hspeed. cbn [bind].
    rewrite float_mod_ok by lra. cbn [bind].
    destruct parent_pos as [px py]. eexists. reflexivity.
  - intros Hle. rewrite Hspeed, py_max_le by exact Hle. f_equal. lra.
Qed.

Lemma solar_moon_update_total_witness :
  SolarSystem.Moon.angular_speed (solar_moon 0) = Ok 360
  /\ SolarSystem.Moon.angular_speed (solar_moon (-5)) = Ok 360
  /\ returns (SolarSystem.Moon.update (solar_moon 0) (3, 4) 0.016 1).
Proof.
  split; [| split].
  - apply (proj2 (proj2 (proj2 (solar_moon_update_total (solar_moon 0) (0, 0) 0 0)))).
    simpl. lra.
  - apply (proj2 (proj2 (proj2 (solar_moon_update_total (solar_moon (-5)) (0, 0) 0 0)))).
    simpl. lra.
  - apply (proj1 (solar_moon_update_total (solar_moon 0) (3, 4) 0.016 1)).
Defined.

End SolarMoon.

(** ** The frame loop: what an iteration keeps and what it changes *)

Section FrameLoop.

Import GreatestUniverse Model.

Lemma moon_draw_inv (g : Globals) (r : R) (m m' : Moon.t) (t dt px py : R) :
  Moon.draw g r m t dt px py = Ok m' ->
  moon_config m' = moon_config m
  /\ Moon.position m r t px py = Ok (Moon.curr_x m', Moon.curr_y m')
  /\ Moon.trail m'
     = if SHOW_TRAILS g
       then append_bounded MAX_TRAIL_POINTS (Moon.trail m)
              (CelestialBody.world_to_screen g (Moon.curr_x m') (Moon.curr_y m'))
       else [].
Proof.
  unfold Moon.draw. intros H.
  apply bind_Ok_inv in H as [[x y] [Hpos H]].
  unfold CelestialBody.world_to_screen in *. cbv zeta in H.
  destruct (SHOW_TRAILS g) eqn:Htr; injection H as <-; cbn;
    repeat split; assumption.
Qed.

Lemma moon_draw_bounded (g : Globals) (r : R) (m m' : Moon.t) (t dt px py : R) :
  Moon.draw g r m t dt px py = Ok m' ->
  moon_trail_bounded m -> moon_trail_bounded m'.
Proof.
  intros H Hb. apply moon_draw_inv in H as (_ & _ & Htrail).
  unfold moon_trail_bounded in *. rewrite Htrail.
  destruct (SHOW_TRAILS g).
  - apply append_bounded_length. exact Hb.
  - simpl. lia.
Qed.

Lemma moon_draw_returns (g : Globals) (r : R) (m : Moon.t) (t dt px py : R) :
  valid_moon m -> returns (Moon.draw g r m t dt px py).
Proof.
  intros Hv. unfold Moon.draw.
  rewrite moon_position_ok by exact Hv. cbn [bind].
  unfold CelestialBody.world_to_screen. cbv zeta.
  eexists. reflexivity.
Qed.

Lemma moon_config_valid (m m' : Moon.t) :
  moon_config m' = moon_config m -> valid_moon m -> valid_moon m'.
Proof.
  unfold moon_config, valid_moon. intros H. injection H as _ _ Hper _ _ _ _ _.
  rewrite Hper. trivial.
Qed.

Lemma rotation_returns (rot hours dt : R) :
  hours <> 0 ->
  returns (h <- float_truediv hours 24 ;;
           turn <- float_truediv (360 * dt) h ;;
           float_mod (rot + turn) 360).
Proof.
  intros Hh. rewrite float_truediv_ok by lra. cbn [bind].
  rewrite float_truediv_ok by (intros E; apply Hh; lra). cbn [bind].
  rewrite float_mod_ok by lra. eexists. reflexivity.
Qed.

Lemma planet_draw_inv (g : Globals) (p p' : Planet.t) (t dt : R) :
  Planet.draw g p t dt = Ok p' ->
  planet_config p' = planet_config p
  /\ returned_position (Planet.compute_orbital_position g p t)
     = Ok (Planet.curr_x p', Planet.curr_y p')
  /\ Planet.trail p'
     = (if SHOW_TRAILS g
        then append_bounded MAX_TRAIL_POINTS (Planet.trail p)
               (CelestialBody.world_to_screen g (Planet.curr_x p') (Planet.curr_y p'))
        else [])
  /\ Forall2 (fun m m' =>
                Moon.draw g (Planet.radius_px p) m t dt
                  (Planet.curr_x p') (Planet.curr_y p') = Ok m')
             (Planet.moons p) (Planet.moons p').
Proof.
  unfold Planet.draw. intros H.
  apply bind_Ok_inv in H as [[p1 [x y]] [Hpos H]].
  assert (Hp1 : p1 = Planet.set_curr p x y).
  { unfold Planet.compute_orbital_position in Hpos.
    apply bind_Ok_inv in Hpos as [q [_ Hpos]].
    apply bind_Ok_inv in Hpos as [fr [_ Hpos]].
    apply bind_Ok_inv in Hpos as [s [_ Hpos]].
    injection Hpos as <- <- <-. reflexivity. }
  subst p1.
  apply bind_Ok_inv in H as [rot [_ H]].
  unfold CelestialBody.world_to_screen in *. cbv zeta in H.
  assert (Hret : returned_position (Planet.compute_orbital_position g p t) = Ok (x, y)).
  { rewrite Hpos. reflexivity. }
  destruct (SHOW_TRAILS g) eqn:Htr;
    apply bind_Ok_inv in H as [ms [Hms H]]; injection H as <-; cbn in *;
    apply for_each_Forall2 in Hms;
    (assert (Hcfg : map moon_config ms = map moon_config (Planet.moons p))
      by (apply Forall2_map_eq;
          eapply Forall2_impl; [| exact Hms];
          intros m m' Hd; apply moon_draw_inv in Hd as [Hc _]; exact Hc));
    unfold planet_config; cbn; rewrite Hcfg; repeat split; assumption.
Qed.

Lemma planet_draw_bounded (g : Globals) (p p' : Planet.t) (t dt : R) :
  Planet.draw g p t dt = Ok p' ->
  planet_trails_bounded p -> planet_trails_bounded p'.
Proof.
  intros H [Hb Hmoons]. apply planet_draw_inv in H as (_ & _ & Htrail & Hms).
  split.
  - rewrite Htrail. destruct (SHOW_TRAILS g).
    + apply append_bounded_length. exact Hb.
    + simpl. lia.
  - eapply Forall2_Forall_r; [exact Hms |].
    eapply Forall_impl; [| exact Hmoons].
    intros m Hm m' Hd. eapply moon_draw_bounded; eassumption.
Qed.

Lemma planet_config_valid (p p' : Planet.t) :
  planet_config p' = planet_config p -> valid_planet p -> valid_planet p'.
Proof.
  unfold planet_config, valid_planet. intros H (Hper & He & Hms).
  injection H as _ _ He' Hper' _ _ _ _ _ Hmoons.
  rewrite Hper', He'. repeat split; try assumption.
  eapply map_eq_Forall; [| exact Hmoons | exact Hms].
  intros m m'. apply moon_config_valid.
Qed.

Lemma planet_draw_returns (g : Globals) (p : Planet.t) (t dt : R) :
  valid_planet p -> returns (Planet.draw g p t dt).
Proof.
  intros (Hper & He & Hms). unfold Planet.draw.
  rewrite compute_orbital_position_ok by assumption. cbn [bind].
  cbn [Planet.set_curr Planet.rotation_hours Planet.rotation_angle].
  assert (Hrot : returns
            (if Req_dec_T (Planet.rotation_hours p) 0
             then Ok (Planet.rotation_angle p)
             else
               h <- float_truediv (Planet.rotation_hours p) 24 ;;
               turn <- float_truediv (360 * dt) h ;;
               float_mod (Planet.rotation_angle p + turn) 360)).
  { destruct (Req_dec_T (Planet.rotation_hours p) 0).
    - eexists. reflexivity.
    - apply rotation_returns. assumption. }
  destruct Hrot as [rot Hrot].
  destruct (spec_position g p t) as [x y]. cbn [fst snd].
  rewrite Hrot. cbn [bind].
  unfold CelestialBody.world_to_screen. cbv zeta.
  match goal with
  | |- returns (bind (for_each ?f ?ms) _) =>
      assert (Hall : returns (for_each f ms))
  end.
  { apply for_each_returns.
    destruct (SHOW_TRAILS g); cbn; (eapply Forall_impl; [| exact Hms]);
      intros m Hm; apply moon_draw_returns; exact Hm. }
  destruct Hall as [ms' Hms']. rewrite Hms'. cbn [bind]. eexists. reflexivity.
Qed.

End FrameLoop.

Section Simulation.

Import GreatestUniverse Model.

Lemma draw_orbits_returns (g : Globals) (ps : list Planet.t) :
  Forall valid_planet ps -> returns (draw_orbits g ps).
Proof.
  intros Hall. unfold draw_orbits.
  destruct (negb (SHOW_ORBITS g)); [eexists; reflexivity |].
  induction Hall as [| p rest (_ & He & _) _ IH]; simpl.
  - eexists. reflexivity.
  - rewrite math_sqrt_ok by lra. cbn [bind]. exact IH.
Qed.

Lemma iteration_inv (now : R) (w w' : World) :
  main_loop_iteration now w = Ok w' ->
  globals w'
  = set_clock (globals w) now
      (if paused (globals w) then sim_days (globals w)
       else sim_days (globals w)
            + (now - last_time (globals w)) * TIME_SCALE (globals w))
  /\ exists dt,
      Forall2 (fun p p' => Planet.draw (globals w') p (sim_days (globals w')) dt = Ok p')
              (planets w) (planets w').
Proof.
  unfold main_loop_iteration. intros H.
  destruct (paused (globals w)) eqn:Hp; cbn in H; rewrite Hp in H; cbn in H;
    apply bind_Ok_inv in H as [[] [_ H]];
    apply bind_Ok_inv in H as [ps [Hps H]];
    injection H as <-; cbn;
    (split; [unfold set_clock; cbn; rewrite ?Hp; reflexivity |]);
    eexists; apply for_each_Forall2 in Hps; exact Hps.
Qed.

Lemma iteration_bodies (now : R) (w w' : World) :
  main_loop_iteration now w = Ok w' ->
  body_table w' = body_table w
  /\ (trails_bounded w -> trails_bounded w')
  /\ (Forall valid_planet (planets w) -> Forall valid_planet (planets w')).
Proof.
  intros H. apply iteration_inv in H as [_ [dt Hps]].
  assert (Hcfg : body_table w' = body_table w).
  { unfold body_table. apply Forall2_map_eq.
    eapply Forall2_impl; [| exact Hps].
    intros p p' Hd. apply planet_draw_inv in Hd as [Hc _]. exact Hc. }
  split; [exact Hcfg | split].
  - unfold trails_bounded. intros Hb.
    eapply Forall2_Forall_r; [exact Hps |].
    eapply Forall_impl; [| exact Hb].
    intros p Hp p' Hd. eapply planet_draw_bounded; eassumption.
  - intros Hv. eapply map_eq_Forall; [| exact Hcfg | exact Hv].
    intros p p'. apply planet_config_valid.
Qed.

Lemma iteration_returns (now : R) (w : World) :
  Forall valid_planet (planets w) -> returns (main_loop_iteration now w).
Proof.
  intros Hv. unfold main_loop_iteration.
  match goal with
  | |- returns (let '(g, dt) := ?c in _) => destruct c as [g dt]
  end.
  destruct (draw_orbits_returns g (planets w) Hv) as [[] Ho]. rewrite Ho. cbn [bind].
  match goal with
  | |- returns (bind (for_each ?f ?ps) _) => assert (Hall : returns (for_each f ps))
  end.
  { apply for_each_returns. eapply Forall_impl; [| exact Hv].
    intros p Hp. apply planet_draw_returns. exact Hp. }
  destruct Hall as [ps Hps]. rewrite Hps. cbn [bind]. eexists. reflexivity.
Qed.

Lemma pan_inv (dx dy : R) (g g' : Globals) :
  pan dx dy g = Ok g' ->
  g' = set_view g (view_offset_x g + dx / GLOBAL_SCALE g)
         (view_offset_y g + dy / GLOBAL_SCALE g) (GLOBAL_SCALE g).
Proof.
  unfold pan. intros H.
  apply bind_Ok_inv in H as [ox [Hox H]].
  apply bind_Ok_inv in H as [oy [Hoy H]].
  cbn in Hoy, H. unfold float_truediv in Hox, Hoy.
  destruct (Req_dec_T (GLOBAL_SCALE g) 0); [discriminate |].
  injection Hox as <-. injection Hoy as <-. injection H as <-. reflexivity.
Qed.

Lemma pan_returns (dx dy : R) (g : Globals) :
  GLOBAL_SCALE g <> 0 -> returns (pan dx dy g).
Proof.
  intros Hs. unfold pan. rewrite float_truediv_ok by exact Hs. cbn.
  rewrite float_truediv_ok by exact Hs. cbn. eexists. reflexivity.
Qed.

Lemma on_pan_effect (dx dy : R) (w w' : World) :
  on_pan dx dy w = Ok w' -> key_effect w w'.
Proof.
  unfold on_pan. intros H. apply bind_Ok_inv in H as [g [Hg H]].
  injection H as <-. apply pan_inv in Hg. subst g.
  unfold key_effect. cbn. repeat split; trivial.
Qed.

Lemma key_step_effect (i : Input) (w w' : World) :
  (forall now, i <> Tick now) -> step i w = Ok w' -> key_effect w w'.
Proof.
  intros Hkey H.
  destruct i; simpl in H;
    try (apply on_pan_effect in H; exact H);
    try (exfalso; eapply Hkey; reflexivity);
    unfold on_globals in H; injection H as <-;
    unfold key_effect; cbn; repeat split; trivial; intros Hpos; lra.
Qed.

Lemma step_returns (i : Input) (w : World) :
  valid_world w -> returns (step i w).
Proof.
  intros [Hs Hv].
  assert (Hpan : forall dx dy, returns (on_pan dx dy w)).
  { intros dx dy. unfold on_pan.
    destruct (pan_returns dx dy (globals w)) as [g Hg]; [lra |].
    rewrite Hg. cbn. eexists. reflexivity. }
  destruct i; simpl; try apply Hpan; try (eexists; reflexivity).
  apply iteration_returns. exact Hv.
Qed.

Lemma input_cases (i : Input) :
  (exists now, i = Tick now) \/ (forall now, i <> Tick now).
Proof.
  destruct i; try (right; intros now; discriminate). left. eexists. reflexivity.
Qed.

Lemma step_bodies (i : Input) (w w' : World) :
  step i w = Ok w' ->
  body_table w' = body_table w
  /\ (trails_bounded w -> trails_bounded w')
  /\ (valid_world w -> valid_world w')
  /\ (0 < TIME_SCALE (globals w) -> 0 < TIME_SCALE (globals w')).
Proof.
  intros H.
  destruct (input_cases i) as [[now ->] | Hkey].
  - simpl in H. pose proof (iteration_inv _ _ _ H) as [Hg _].
    apply iteration_bodies in H as (Hcfg & Hb & Hv).
    split; [exact Hcfg | split; [exact Hb | split]].
    + intros [Hs Hvp]. split; [rewrite Hg; exact Hs | apply Hv; exact Hvp].
    + rewrite Hg. trivial.
  - apply key_step_effect in H as (Hps & _ & _ & Hts & Hgs); [| exact Hkey].
    unfold body_table, trails_bounded, valid_world. rewrite Hps.
    repeat split; try tauto.
Qed.

Lemma run_bodies (inputs : list Input) (w w' : World) :
  run inputs w = Ok w' ->
  body_table w' = body_table w
  /\ (trails_bounded w -> trails_bounded w')
  /\ (valid_world w -> valid_world w')
  /\ (0 < TIME_SCALE (globals w) -> 0 < TIME_SCALE (globals w')).
Proof.
  revert w. induction inputs as [| i rest IH]; simpl; intros w H.
  - injection H as <-. tauto.
  - apply bind_Ok_inv in H as [w1 [Hstep H]].
    apply step_bodies in Hstep as (Hc1 & Hb1 & Hv1 & Ht1).
    apply IH in H as (Hc & Hb & Hv & Ht).
    rewrite Hc, Hc1. tauto.
Qed.

Lemma run_returns (inputs : list Input) (w : World) :
  valid_world w -> returns (run inputs w).
Proof.
  revert w. induction inputs as [| i rest IH]; simpl; intros w Hv.
  - eexists. reflexivity.
  - destruct (step_returns i w Hv) as [w1 Hw1]. rewrite Hw1. cbn [bind].
    apply IH. apply step_bodies in Hw1 as (_ & _ & Hv1 & _). apply Hv1. exact Hv.
Qed.


Lemma sample_world_valid : valid_world sample_world.
Proof.
  split; [simpl; lra |].
  repeat constructor; simpl; try lra.
  unfold valid_moon. simpl. lra.
Qed.

Lemma sample_world_bounded : trails_bounded sample_world.
Proof.
  repeat constructor; unfold moon_trail_bounded, MAX_TRAIL_POINTS; simpl; lia.
Qed.

Lemma iteration_step (now : R) (w : World) :
  valid_world w ->
  exists w1,
    main_loop_iteration now w = Ok w1
    /\ globals w1
       = set_clock (globals w) now
           (if paused (globals w) then sim_days (globals w)
            else sim_days (globals w)
                 + (now - last_time (globals w)) * TIME_SCALE (globals w))
    /\ valid_world w1.
Proof.
  intros Hv. destruct (iteration_returns now w (proj2 Hv)) as [w1 Hw1].
  exists w1. split; [exact Hw1 | split].
  - apply iteration_inv in Hw1 as [Hg _]. exact Hg.
  - apply (step_bodies (Tick now)) in Hw1 as (_ & _ & Hv1 & _). apply Hv1. exact Hv.
Qed.

Lemma valid_world_keep_bodies (w : World) (g : Globals) :
  valid_world w -> 0 < GLOBAL_SCALE g -> valid_world (mkWorld g (planets w)).
Proof.
  intros [_ Hv] Hs. split; assumption.
Qed.

(** The sample session: 120 simulated days in the first second, none while
    paused, 216 more in the last second at 1.8 times the speed. *)
Example sample_session_clock :
  exists w',
    run sample_inputs sample_world = Ok w'
    /\ sim_days (globals w') = 336
    /\ TIME_SCALE (globals w') = 216
    /\ paused (globals w') = false.
Proof.
  unfold sample_inputs.
  destruct (iteration_step 1 sample_world sample_world_valid) as (w1 & H1 & G1 & V1).
  cbn [run step]. rewrite H1. cbn [bind on_globals globals planets].
  set (w2 := mkWorld (toggle_pause (globals w1)) (planets w1)).
  assert (V2 : valid_world w2) by (apply valid_world_keep_bodies; [exact V1 | apply V1]).
  destruct (iteration_step 5 w2 V2) as (w3 & H3 & G3 & V3).
  rewrite H3. cbn [bind on_globals globals planets].
  set (w4 := mkWorld (toggle_trails_action (speed_up (toggle_pause (globals w3))))
                     (planets w3)).
  assert (V4 : valid_world w4) by (apply valid_world_keep_bodies; [exact V3 | apply V3]).
  destruct (iteration_step 6 w4 V4) as (w5 & H5 & G5 & V5).
  rewrite H5. cbn [bind on_globals globals planets].
  unfold on_pan. cbn [globals planets].
  destruct (pan_returns (-40) 0 (zoom_in (toggle_trails_action (globals w5))))
    as [g6 Hg6].
  { cbn. destruct V5 as [Hs _]. lra. }
  rewrite Hg6. cbn [bind]. eexists. split; [reflexivity |].
  apply pan_inv in Hg6. subst g6. cbn.
  rewrite G5. subst w4. cbn. rewrite G3. subst w2. cbn. rewrite G1. cbn.
  repeat split; lra.
Qed.

End Simulation.

(** ** The simulation clock and the trails *)

Section ClockAndTrails.

Import GreatestUniverse Model.



Lemma comet_update_bounded (c c' : SolarSystem.Comet.t) (dt speed_multiplier : R) :
  SolarSystem.Comet.update c dt speed_multiplier = Ok c' ->
  (length (SolarSystem.Comet.trail c) <= SolarSystem.COMET_TRAIL_LENGTH)%nat ->
  (length (SolarSystem.Comet.trail c') <= SolarSystem.COMET_TRAIL_LENGTH)%nat.
Proof.
  unfold SolarSystem.Comet.update. intros H Hb.
  destruct (negb (SolarSystem.Comet.alive c)).
  - injection H as <-. exact Hb.
  - destruct (SolarSystem.Comet.pos c) as [px py].
    rewrite float_truediv_ok in H by lra. cbn [bind] in H.
    repeat match type of H with
           | context [Rlt_dec ?a ?b] => destruct (Rlt_dec a b)
           end;
      injection H as <-; cbn; apply append_bounded_length; exact Hb.
Qed.

Lemma solar_planet_update_bodies
    (show_moons : bool) (p p' : SolarSystem.Planet.t) (dt speed_multiplier : R) :
  SolarSystem.Planet.update show_moons p dt speed_multiplier = Ok p' ->
  SolarSystem.Planet.name p' = SolarSystem.Planet.name p
  /\ map SolarSystem.Moon.name (SolarSystem.Planet.moons p')
     = map SolarSystem.Moon.name (SolarSystem.Planet.moons p).
Proof.
  unfold SolarSystem.Planet.update. intros H.
  apply bind_Ok_inv in H as [ang [_ H]].
  apply bind_Ok_inv in H as [[x y] [_ H]].
  destruct show_moons.
  - apply bind_Ok_inv in H as [ms [Hms H]]. injection H as <-. cbn.
    split; [reflexivity |].
    apply for_each_Forall2 in Hms. apply Forall2_map_eq.
    eapply Forall2_impl; [| exact Hms].
    intros m m' Hm. unfold SolarSystem.Moon.update in Hm.
    apply bind_Ok_inv in Hm as [om [_ Hm]].
    apply bind_Ok_inv in Hm as [a' [_ Hm]].
    cbn in Hm. injection Hm as <-. reflexivity.
  - injection H as <-. cbn. split; reflexivity.
Qed.

Lemma radius_km_to_pixels_returns (radius_km : R) : returns (radius_km_to_pixels radius_km).
Proof.
  unfold radius_km_to_pixels, math_log.
  pose proof (py_max_ge_l 1 radius_km).
  destruct (Rle_lt_dec (py_max 1 radius_km) 0); [lra |].
  cbn [bind]. eexists. reflexivity.
Qed.

(** C9: the trails are bounded queues.  Along every session the trail of
    every planet and moon stays within [MAX_TRAIL_POINTS] = 120 and the table
    of bodies stays the one built at startup; a comet's trail stays within
    [COMET_TRAIL_LENGTH] = 80; an append to a full trail drops the oldest
    point; the constructors start with an empty trail. *)
Theorem trails_are_bounded_queues :
  (MAX_TRAIL_POINTS = 120%nat /\ SolarSystem.COMET_TRAIL_LENGTH = 80%nat)
  /\ (forall (inputs : list Input) (w w' : World),
        trails_bounded w ->
        run inputs w = Ok w' ->
        trails_bounded w' /\ body_table w' = body_table w)
  /\ (forall (g : Globals) (p p' : Planet.t) (t dt : R),
        planet_trails_bounded p ->
        Planet.draw g p t dt = Ok p' ->
        planet_trails_bounded p' /\ planet_config p' = planet_config p)
  /\ (forall (c c' : SolarSystem.Comet.t) (dt speed_multiplier : R),
        (length (SolarSystem.Comet.trail c) <= SolarSystem.COMET_TRAIL_LENGTH)%nat ->
        SolarSystem.Comet.update c dt speed_multiplier = Ok c' ->
        (length (SolarSystem.Comet.trail c') <= SolarSystem.COMET_TRAIL_LENGTH)%nat)
  /\ (forall (show_moons : bool) (p p' : SolarSystem.Planet.t) (dt speed_multiplier : R),
        SolarSystem.Planet.update show_moons p dt speed_multiplier = Ok p' ->
        SolarSystem.Planet.name p' = SolarSystem.Planet.name p
        /\ map SolarSystem.Moon.name (SolarSystem.Planet.moons p')
           = map SolarSystem.Moon.name (SolarSystem.Planet.moons p))
  /\ (forall (bound : nat) (oldest pt : R * R) (rest : list (R * R)),
        length (oldest :: rest) = bound ->
        append_bounded bound (oldest :: rest) pt = rest ++ [pt])
  /\ (forall (bound : nat) (trail : list (R * R)) (pt : R * R),
        (length trail < bound)%nat ->
        append_bounded bound trail pt = trail ++ [pt])
  /\ (forall name a_au ecc inc period radius_km rot rand_angle rand_rot,
        exists p,
          Planet.init name a_au ecc inc period radius_km rot rand_angle rand_rot = Ok p
          /\ Planet.trail p = [] /\ Planet.moons p = [])
  /\ (forall name dist period radius_km ecc inc rand_angle,
        exists m,
          Moon.init name dist period radius_km ecc inc rand_angle = Ok m
          /\ Moon.trail m = []).
Proof.
  split; [split; reflexivity |].
  split.
  { intros inputs w w' Hb H. apply run_bodies in H as (Hc & Hb' & _ & _).
    split; [apply Hb'; exact Hb | exact Hc]. }
  split.
  { intros g p p' t dt Hb H. split.
    - eapply planet_draw_bounded; eassumption.
    - apply planet_draw_inv in H as [Hc _]. exact Hc. }
  split.
  { intros c c' dt sm Hb H. eapply comet_update_bounded; eassumption. }
  split.
  { apply solar_planet_update_bodies. }
  split.
  { intros bound oldest pt rest. apply append_bounded_full. }
  split.
  { intros bound trail pt. apply append_bounded_room. }
  split.
  - intros. unfold Planet.init.
    destruct (radius_km_to_pixels_returns radius_km) as [px Hpx].
    rewrite Hpx. cbn [bind]. eexists. repeat split.
  - intros. unfold Moon.init.
    destruct (radius_km_to_pixels_returns radius_km) as [px Hpx].
    rewrite Hpx. cbn [bind]. eexists. repeat split.
Qed.

Lemma trails_are_bounded_queues_witness :
  exists w',
    run sample_inputs sample_world = Ok w'
    /\ trails_bounded w'
    /\ body_table w' = body_table sample_world.
Proof.
  destruct (run_returns sample_inputs sample_world sample_world_valid) as [w' Hw'].
  exists w'. split; [exact Hw' |].
  apply (proj1 (proj2 trails_are_bounded_queues) sample_inputs sample_world w').
  - exact sample_world_bounded.
  - exact Hw'.
Defined.

End ClockAndTrails.

(** * Further properties of the three scripts *)

(** ** Sizes and clamps *)

Section Clamps.

Import GreatestUniverse.

Lemma py_max_Rmax (a b : R) : py_max a b = Rmax a b.
Proof.
  unfold py_max, Rmax. destruct (Rlt_dec a b), (Rle_dec a b); lra.
Qed.

Lemma py_min_Rmin (a b : R) : py_min a b = Rmin b a.
Proof.
  unfold py_min, Rmin. destruct (Rlt_dec b a), (Rle_dec b a); lra.
Qed.

Lemma clamp_range (v a b : R) : a <= b -> a <= clamp v a b <= b.
Proof.
  intros Hab. unfold clamp. rewrite py_max_Rmax, py_min_Rmin.
  split; [apply Rmax_l |].
  apply Rmax_lub; [exact Hab | apply Rmin_r].
Qed.

Lemma clamp_mono (v1 v2 a b : R) : v1 <= v2 -> clamp v1 a b <= clamp v2 a b.
Proof.
  intros Hv. unfold clamp. rewrite !py_max_Rmax, !py_min_Rmin.
  apply Rle_max_compat_l. apply Rle_min_compat_r. exact Hv.
Qed.

Lemma clamp_inside (v a b : R) : a <= v <= b -> clamp v a b = v.
Proof.
  intros [Ha Hb]. unfold clamp, py_max, py_min.
  destruct (Rlt_dec v b); destruct (Rlt_dec a _); lra.
Qed.

Lemma radius_km_to_pixels_value (radius_km : R) :
  radius_km_to_pixels radius_km = Ok (clamp (2.8 * ln (py_max 1 radius_km) + 1.5) 3 60).
Proof.
  unfold radius_km_to_pixels, math_log.
  pose proof (py_max_ge_l 1 radius_km).
  destruct (Rle_lt_dec (py_max 1 radius_km) 0); [lra | reflexivity].
Qed.

Lemma ln_monotone (x y : R) : 0 < x -> x <= y -> ln x <= ln y.
Proof.
  intros Hx [Hlt | ->]; [| lra].
  left. apply ln_increasing; assumption.
Qed.

(** X1: [radius_km_to_pixels] never raises, whatever the radius (zero and
    negative ones included), its result lies between 3 and 60 pixels, and a
    larger body never gets a smaller disc. *)
Theorem radius_km_to_pixels_clamped_monotone (r1 r2 : R) :
  r1 <= r2 ->
  exists px1 px2,
    radius_km_to_pixels r1 = Ok px1
    /\ radius_km_to_pixels r2 = Ok px2
    /\ 3 <= px1 /\ px1 <= px2 /\ px2 <= 60.
Proof.
  intros Hr. rewrite !radius_km_to_pixels_value. do 2 eexists.
  split; [reflexivity | split; [reflexivity |]].
  split; [apply clamp_range; lra | split; [| apply clamp_range; lra]].
  apply clamp_mono.
  assert (Hm : py_max 1 r1 <= py_max 1 r2).
  { rewrite !py_max_Rmax. apply Rle_max_compat_l. exact Hr. }
  pose proof (py_max_ge_l 1 r1) as H1.
  assert (Hln : ln (py_max 1 r1) <= ln (py_max 1 r2))
    by (apply ln_monotone; [lra | exact Hm]).
  lra.
Qed.

Lemma radius_km_to_pixels_clamped_monotone_witness :
  exists px1 px2,
    radius_km_to_pixels (-5) = Ok px1
    /\ radius_km_to_pixels 6371 = Ok px2
    /\ 3 <= px1 /\ px1 <= px2 /\ px2 <= 60.
Proof.
  apply (radius_km_to_pixels_clamped_monotone (-5) 6371). lra.
Defined.

End Clamps.

(** ** Screen coordinates, clicks and panning *)

Section ViewAndClicks.

Import GreatestUniverse Model Samples.

Lemma screen_to_world_ok (g : Globals) (x y : R) :
  GLOBAL_SCALE g <> 0 ->
  screen_to_world g x y
  = Ok (x / GLOBAL_SCALE g - view_offset_x g, y / GLOBAL_SCALE g - view_offset_y g).
Proof.
  intros Hs. unfold screen_to_world.
  rewrite !float_truediv_ok by exact Hs. reflexivity.
Qed.

(** X2: the conversion at the head of [on_click] undoes [world_to_screen],
    and [world_to_screen] undoes it, whenever the zoom factor is not 0; with
    a zoom factor of 0 the conversion, and so the click, raises
    [ZeroDivisionError]. *)
Theorem screen_world_round_trip (g : Globals) (x y : R) :
  (GLOBAL_SCALE g <> 0 ->
   screen_to_world g (fst (CelestialBody.world_to_screen g x y))
                     (snd (CelestialBody.world_to_screen g x y)) = Ok (x, y)
   /\ exists wx wy,
        screen_to_world g x y = Ok (wx, wy)
        /\ CelestialBody.world_to_screen g wx wy = (x, y))
  /\ (GLOBAL_SCALE g = 0 ->
      forall ps, clicked_body g ps x y = Raise ZeroDivisionError).
Proof.
  split.
  - intros Hs. rewrite !screen_to_world_ok by exact Hs. split.
    + unfold CelestialBody.world_to_screen. cbn [fst snd]. do 2 f_equal; field; exact Hs.
    + do 2 eexists. split; [reflexivity |].
      unfold CelestialBody.world_to_screen. f_equal; field; exact Hs.
  - intros Hs ps. unfold clicked_body, screen_to_world.
    rewrite Hs, float_truediv_zero. reflexivity.
Qed.

Lemma screen_world_round_trip_witness :
  screen_to_world (view 5 5 2) 30 50 = Ok (10, 20)
  /\ clicked_body (view 0 0 0) [circular_body] 30 50 = Raise ZeroDivisionError.
Proof.
  split.
  - destruct (proj1 (screen_world_round_trip (view 5 5 2) 10 20)) as [H _].
    + simpl. lra.
    + unfold CelestialBody.world_to_screen in H. cbn in H.
      replace ((10 + 5) * 2) with 30 in H by lra.
      replace ((20 + 5) * 2) with 50 in H by lra. exact H.
  - apply (proj2 (screen_world_round_trip (view 0 0 0) 30 50)). reflexivity.
Defined.

Lemma math_hypot_self (x y : R) : math_hypot (x - x) (y - y) = 0.
Proof.
  unfold math_hypot. replace ((x - x) * (x - x) + (y - y) * (y - y)) with 0 by ring.
  apply sqrt_0.
Qed.

Lemma click_planets_hit (wx wy : R) (ps : list Planet.t) (p : Planet.t) :
  In p ps ->
  math_hypot (Planet.curr_x p - wx) (Planet.curr_y p - wy) <= Planet.radius_px p * 1.5 ->
  click_planets wx wy ps <> ClickedNothing.
Proof.
  intros Hin Hhit. induction ps as [| q rest IH]; [contradiction |].
  simpl. destruct (Rle_dec _ _) as [Hq | Hq]; [discriminate |].
  destruct (click_moons wx wy (Planet.moons q)); [discriminate |].
  destruct Hin as [-> | Hin]; [contradiction | apply IH; exact Hin].
Qed.

Lemma click_planets_sound (wx wy : R) (ps : list Planet.t) (p : Planet.t) :
  click_planets wx wy ps = ClickedPlanet p ->
  In p ps
  /\ math_hypot (Planet.curr_x p - wx) (Planet.curr_y p - wy) <= Planet.radius_px p * 1.5.
Proof.
  induction ps as [| q rest IH]; simpl; [discriminate |].
  destruct (Rle_dec _ _) as [Hq | Hq].
  - intros E. injection E as <-. split; [left; reflexivity | exact Hq].
  - destruct (click_moons wx wy (Planet.moons q)); [discriminate |].
    intros E. destruct (IH E) as [Hin Hd]. split; [right; exact Hin | exact Hd].
Qed.

(** X3: a click on the spot where a planet is shown always selects a body
    (the planet itself when it is the first of the list), and a click that
    selects a planet is within 1.5 times its visual radius of it, in world
    coordinates. *)
Theorem click_on_planet_selects
    (g : Globals) (p : Planet.t) (before after : list Planet.t) :
  GLOBAL_SCALE g <> 0 ->
  0 <= Planet.radius_px p ->
  let sx := fst (CelestialBody.world_to_screen g (Planet.curr_x p) (Planet.curr_y p)) in
  let sy := snd (CelestialBody.world_to_screen g (Planet.curr_x p) (Planet.curr_y p)) in
  (exists c, clicked_body g (before ++ p :: after) sx sy = Ok c /\ c <> ClickedNothing)
  /\ clicked_body g (p :: after) sx sy = Ok (ClickedPlanet p)
  /\ (forall ps x y q,
        clicked_body g ps x y = Ok (ClickedPlanet q) ->
        In q ps
        /\ exists wx wy,
             screen_to_world g x y = Ok (wx, wy)
             /\ math_hypot (Planet.curr_x q - wx) (Planet.curr_y q - wy)
                <= Planet.radius_px q * 1.5).
Proof.
  intros Hs Hr sx sy.
  assert (Hback : screen_to_world g sx sy = Ok (Planet.curr_x p, Planet.curr_y p)).
  { subst sx sy. rewrite screen_to_world_ok by exact Hs.
    unfold CelestialBody.world_to_screen. cbn [fst snd]. do 2 f_equal; field; exact Hs. }
  assert (Hhit : math_hypot (Planet.curr_x p - Planet.curr_x p)
                            (Planet.curr_y p - Planet.curr_y p)
                 <= Planet.radius_px p * 1.5).
  { rewrite math_hypot_self. lra. }
  split; [| split].
  - unfold clicked_body. rewrite Hback. cbn [bind]. eexists. split; [reflexivity |].
    apply (click_planets_hit _ _ _ p); [| exact Hhit].
    apply in_or_app. right. left. reflexivity.
  - unfold clicked_body. rewrite Hback. cbn [bind]. simpl.
    destruct (Rle_dec _ _); [reflexivity | contradiction].
  - intros ps x y q H. unfold clicked_body in H.
    apply bind_Ok_inv in H as [[wx wy] [Hw H]]. injection H as H.
    apply click_planets_sound in H as [Hin Hd].
    split; [exact Hin |]. exists wx, wy. split; [exact Hw | exact Hd].
Qed.

Lemma click_on_planet_selects_witness :
  clicked_body (view 5 5 2) [circular_body] ((0 + 5) * 2) ((0 + 5) * 2)
  = Ok (ClickedPlanet circular_body).
Proof.
  apply (click_on_planet_selects (view 5 5 2) circular_body [] []).
  - simpl. lra.
  - simpl. lra.
Defined.

(** X4: [pan(dx, dy)] moves the screen position of every world point by
    exactly [(dx, dy)] pixels, whatever the zoom factor (which it leaves
    alone), provided the zoom factor is not 0. *)
Theorem pan_shifts_screen (dx dy : R) (g : Globals) :
  GLOBAL_SCALE g <> 0 ->
  exists g',
    pan dx dy g = Ok g'
    /\ GLOBAL_SCALE g' = GLOBAL_SCALE g
    /\ forall x y,
         CelestialBody.world_to_screen g' x y
         = (fst (CelestialBody.world_to_screen g x y) + dx,
            snd (CelestialBody.world_to_screen g x y) + dy).
Proof.
  intros Hs. destruct (pan_returns dx dy g Hs) as [g' Hg'].
  exists g'. split; [exact Hg' |].
  apply pan_inv in Hg'. subst g'. split; [reflexivity |].
  intros x y. unfold CelestialBody.world_to_screen. cbn. f_equal; field; exact Hs.
Qed.

Lemma pan_shifts_screen_witness :
  exists g',
    pan (-40) 0 (view 5 5 2) = Ok g'
    /\ GLOBAL_SCALE g' = GLOBAL_SCALE (view 5 5 2)
    /\ forall x y,
         CelestialBody.world_to_screen g' x y
         = (fst (CelestialBody.world_to_screen (view 5 5 2) x y) + (-40),
            snd (CelestialBody.world_to_screen (view 5 5 2) x y) + 0).
Proof.
  apply (pan_shifts_screen (-40) 0 (view 5 5 2)). simpl. lra.
Defined.

(** X5: with no pan offset, multiplying the zoom factor by [k] multiplies
    the on-screen coordinates of a planet by [k * k]: the factor enters the
    orbital radius through [au_to_px] and the screen position through
    [world_to_screen]. *)
Theorem zoom_acts_twice_on_planets (g1 g2 : Globals) (p : Planet.t) (t k : R) :
  view_offset_x g1 = 0 -> view_offset_y g1 = 0 ->
  view_offset_x g2 = 0 -> view_offset_y g2 = 0 ->
  GLOBAL_SCALE g2 = k * GLOBAL_SCALE g1 ->
  Planet.period_days p <> 0 ->
  Planet.e p * Planet.e p <= 1 ->
  exists sx sy,
    planet_screen g1 p t = Ok (sx, sy)
    /\ planet_screen g2 p t = Ok (k * k * sx, k * k * sy).
Proof.
  intros Hx1 Hy1 Hx2 Hy2 Hk Hper He. unfold planet_screen.
  rewrite !compute_orbital_position_ok by assumption. cbn [bind].
  unfold CelestialBody.world_to_screen, spec_position, Spec.computeOrbitalPosition,
    orbital_radius, au_to_px.
  rewrite Hx1, Hy1, Hx2, Hy2, Hk. do 2 eexists. split; [reflexivity |].
  do 2 f_equal; ring.
Qed.

Lemma zoom_acts_twice_on_planets_witness :
  exists sx sy,
    planet_screen (view 0 0 1) sample_planet 10 = Ok (sx, sy)
    /\ planet_screen (zoom_in (view 0 0 1)) sample_planet 10
       = Ok (1.2 * 1.2 * sx, 1.2 * 1.2 * sy).
Proof.
  apply (zoom_acts_twice_on_planets (view 0 0 1) (zoom_in (view 0 0 1))
           sample_planet 10 1.2); try reflexivity.
  - simpl. lra.
  - simpl. lra.
  - simpl. lra.
Defined.

End ViewAndClicks.

(** ** Frames: exceptions, trails, pause and frame rate *)

Section Frames.

Import GreatestUniverse Model Samples.

Lemma Forall2_Forall_l {A B : Type} (P : A -> Prop) (Q : A -> B -> Prop)
    (xs : list A) (ys : list B) :
  Forall2 Q xs ys -> (forall x y, Q x y -> P x) -> Forall P xs.
Proof.
  intros H HQ. induction H as [| x y xs' ys' Hxy _ IH]; constructor.
  - eapply HQ. exact Hxy.
  - exact IH.
Qed.

Lemma Forall2_chain_map {A B : Type} (h : A -> B) (Q1 Q2 : A -> A -> Prop)
    (xs ys zs : list A) :
  Forall2 Q1 xs ys -> Forall2 Q2 ys zs ->
  (forall x y z, Q1 x y -> Q2 y z -> h z = h y) ->
  map h zs = map h ys.
Proof.
  intros H1. revert zs. induction H1 as [| x y xs' ys' Hxy _ IH]; intros zs H2 Hh.
  - inversion H2. reflexivity.
  - inversion H2 as [| ? z ? zs' Hyz Hrest]; subst. simpl.
    rewrite (Hh x y z Hxy Hyz), (IH zs' Hrest Hh). reflexivity.
Qed.

Lemma moon_draw_valid (g : Globals) (r : R) (m m' : Moon.t) (t dt px py : R) :
  Moon.draw g r m t dt px py = Ok m' -> valid_moon m.
Proof.
  intros H. apply moon_draw_inv in H as (_ & Hpos & _).
  unfold valid_moon. intros Hz.
  rewrite moon_position_zero_period in Hpos by exact Hz. discriminate.
Qed.

Lemma planet_draw_valid (g : Globals) (p p' : Planet.t) (t dt : R) :
  Planet.draw g p t dt = Ok p' -> valid_planet p.
Proof.
  intros H. apply planet_draw_inv in H as (_ & Hpos & _ & Hms).
  assert (Hper : Planet.period_days p <> 0).
  { intros Hz. rewrite compute_orbital_position_zero_period in Hpos by exact Hz.
    discriminate. }
  split; [exact Hper | split].
  - destruct (Rle_lt_dec (Planet.e p * Planet.e p) 1) as [Hle | Hgt]; [exact Hle |].
    rewrite compute_orbital_position_hyperbolic in Hpos by assumption. discriminate.
  - eapply Forall2_Forall_l; [exact Hms |].
    intros m m' Hd. eapply moon_draw_valid. exact Hd.
Qed.


Lemma append_bounded_length_min {A : Type} (bound : nat) (trail : list A) (pt : A) :
  (length trail <= bound)%nat ->
  length (append_bounded bound trail pt) = Nat.min (S (length trail)) bound.
Proof.
  intros Hlen. unfold append_bounded, pop0.
  assert (Happ : length (trail ++ [pt]) = S (length trail))
    by (rewrite length_app; simpl; lia).
  destruct (Nat.ltb_spec bound (length (trail ++ [pt]))) as [Hgt | Hle].
  - destruct trail as [| a tr].
    + cbn [app length] in *. assert (bound = 0)%nat by lia. subst bound. reflexivity.
    + cbn [app length tl] in *. rewrite Happ in Hgt.
      assert (Hb : bound = S (length tr)) by lia.
      rewrite Hb, length_app. cbn [length]. lia.
  - rewrite Happ in *. lia.
Qed.

Lemma append_bounded_last {A : Type} (bound : nat) (trail : list A) (pt d : A) :
  (0 < bound)%nat -> (length trail <= bound)%nat ->
  last (append_bounded bound trail pt) d = pt.
Proof.
  intros Hpos Hlen. unfold append_bounded, pop0.
  destruct (Nat.ltb_spec bound (length (trail ++ [pt]))) as [Hgt | Hle].
  - destruct trail as [| a tr]; simpl in *; [lia |].
    apply last_last.
  - apply last_last.
Qed.

(** X7: with trails switched off an iteration empties the trail of every
    planet and moon; with trails switched on a planet's trail grows by one
    point per frame up to 120 points, and its newest point is the screen
    position the planet was just drawn at. *)
Theorem trails_follow_the_toggle :
  (forall (now : R) (w w' : World),
      SHOW_TRAILS (globals w) = false ->
      main_loop_iteration now w = Ok w' ->
      trails_empty w')
  /\ (forall (g : Globals) (p p' : Planet.t) (t dt : R),
        SHOW_TRAILS g = true ->
        (length (Planet.trail p) <= MAX_TRAIL_POINTS)%nat ->
        Planet.draw g p t dt = Ok p' ->
        length (Planet.trail p') = Nat.min (S (length (Planet.trail p))) 120
        /\ last (Planet.trail p') (0, 0)
           = CelestialBody.world_to_screen g (Planet.curr_x p') (Planet.curr_y p')).
Proof.
  split.
  - intros now w w' Hoff H. apply iteration_inv in H as [Hg [dt Hps]].
    assert (Hoff' : SHOW_TRAILS (globals w') = false) by (rewrite Hg; exact Hoff).
    unfold trails_empty.
    eapply Forall2_Forall_r; [exact Hps |].
    apply Forall_forall. intros p _ p' Hd.
    apply planet_draw_inv in Hd as (_ & _ & Htrail & Hms).
    rewrite Hoff' in Htrail. split; [exact Htrail |].
    eapply Forall2_Forall_r; [exact Hms |].
    apply Forall_forall. intros m _ m' Hm.
    apply moon_draw_inv in Hm as (_ & _ & Hmt). rewrite Hoff' in Hmt. exact Hmt.
  - intros g p p' t dt Hon Hlen H.
    apply planet_draw_inv in H as (_ & _ & Htrail & _).
    rewrite Hon in Htrail. rewrite Htrail. split.
    + apply append_bounded_length_min. exact Hlen.
    + apply append_bounded_last; [unfold MAX_TRAIL_POINTS; lia | exact Hlen].
Qed.

Lemma trails_follow_the_toggle_witness :
  exists w',
    main_loop_iteration 1 (mkWorld (toggle_trails_action (initial_globals 0))
                                   [sample_planet]) = Ok w'
    /\ trails_empty w'.
Proof.
  destruct (iteration_returns 1 (mkWorld (toggle_trails_action (initial_globals 0))
                                         [sample_planet]) (proj2 sample_world_valid))
    as [w' Hw'].
  exists w'. split; [exact Hw' |].
  apply (proj1 trails_follow_the_toggle 1
           (mkWorld (toggle_trails_action (initial_globals 0)) [sample_planet]) w');
    [reflexivity | exact Hw'].
Defined.

Lemma moon_position_config (m1 m2 : Moon.t) (r t px py : R) :
  moon_config m2 = moon_config m1 ->
  Moon.position m2 r t px py = Moon.position m1 r t px py.
Proof.
  unfold moon_config. intros H. injection H as _ Hd Hper _ _ _ Hincl Hang.
  unfold Moon.position. rewrite Hd, Hper, Hincl, Hang. reflexivity.
Qed.

Lemma planet_config_params (p1 p2 : Planet.t) :
  planet_config p2 = planet_config p1 ->
  orbital_params p2 = orbital_params p1 /\ Planet.radius_px p2 = Planet.radius_px p1.
Proof.
  unfold planet_config, orbital_params. intros H.
  injection H as _ Ha He Hper Hinc _ Hrad Hang _ _.
  rewrite Ha, He, Hper, Hinc, Hrad, Hang. split; reflexivity.
Qed.

Lemma paused_redraw_same_places (g1 g2 : Globals) (p0 p1 p2 : Planet.t) (t dt1 dt2 : R) :
  GLOBAL_SCALE g2 = GLOBAL_SCALE g1 ->
  Planet.draw g1 p0 t dt1 = Ok p1 ->
  Planet.draw g2 p1 t dt2 = Ok p2 ->
  planet_places p2 = planet_places p1.
Proof.
  intros Hs H1 H2.
  pose proof (planet_draw_valid _ _ _ _ _ H1) as (Hper0 & He0 & _).
  pose proof (planet_draw_valid _ _ _ _ _ H2) as (Hper1 & He1 & _).
  apply planet_draw_inv in H1 as (Hc1 & Hpos1 & _ & Hms1).
  apply planet_draw_inv in H2 as (Hc2 & Hpos2 & _ & Hms2).
  apply planet_config_params in Hc1 as [Hpar1 Hrad1].
  assert (Hxy : (Planet.curr_x p2, Planet.curr_y p2) = (Planet.curr_x p1, Planet.curr_y p1)).
  { rewrite compute_orbital_position_ok in Hpos1, Hpos2 by assumption.
    cbn [returned_position bind] in Hpos1, Hpos2.
    rewrite (spec_position_params g2 g1 p1 p0 t Hs Hpar1) in Hpos2.
    rewrite Hpos1 in Hpos2. injection Hpos2 as -> ->. reflexivity. }
  unfold planet_places. rewrite Hxy. f_equal.
  injection Hxy as Hx Hy.
  eapply Forall2_chain_map; [exact Hms1 | exact Hms2 |].
  intros m0 m1 m2 Hd1 Hd2.
  apply moon_draw_inv in Hd1 as (Hmc1 & Hmp1 & _).
  apply moon_draw_inv in Hd2 as (_ & Hmp2 & _).
  rewrite (moon_position_config m0 m1) in Hmp2 by exact Hmc1.
  rewrite Hrad1, Hx, Hy, Hmp1 in Hmp2.
  unfold moon_place. injection Hmp2 as -> ->. reflexivity.
Qed.

(** X8: pausing freezes every body where it is: when an iteration runs
    while [paused] is set, with the zoom factor and the simulated time that
    the previous iteration left (keys that change neither may have been
    pressed in between, the pause key among them), every planet and every
    moon is drawn at the place the previous iteration put it. *)
Theorem paused_iteration_keeps_places
    (now1 now2 : R) (w0 w1 w2 : World) (g : Globals) :
  main_loop_iteration now1 w0 = Ok w1 ->
  GLOBAL_SCALE g = GLOBAL_SCALE (globals w1) ->
  sim_days g = sim_days (globals w1) ->
  paused g = true ->
  main_loop_iteration now2 (mkWorld g (planets w1)) = Ok w2 ->
  map planet_places (planets w2) = map planet_places (planets w1)
  /\ sim_days (globals w2) = sim_days (globals w1).
Proof.
  intros H1 Hs Hd Hp H2.
  apply iteration_inv in H1 as [_ [dt1 Hps1]].
  apply iteration_inv in H2 as [Hg2 [dt2 Hps2]].
  cbn [globals planets] in Hg2, Hps2. rewrite Hp in Hg2.
  assert (Hsim : sim_days (globals w2) = sim_days (globals w1))
    by (rewrite Hg2; exact Hd).
  split; [| exact Hsim].
  rewrite Hsim in Hps2.
  eapply Forall2_chain_map; [exact Hps1 | exact Hps2 |].
  intros p0 p1 p2 Hd1 Hd2.
  eapply paused_redraw_same_places; [| exact Hd1 | exact Hd2].
  rewrite Hg2. exact Hs.
Qed.

Lemma paused_iteration_keeps_places_witness :
  exists w1 w2,
    main_loop_iteration 1 sample_world = Ok w1
    /\ main_loop_iteration 7 (mkWorld (toggle_pause (globals w1)) (planets w1)) = Ok w2
    /\ map planet_places (planets w2) = map planet_places (planets w1)
    /\ sim_days (globals w2) = sim_days (globals w1).
Proof.
  destruct (iteration_step 1 sample_world sample_world_valid) as (w1 & H1 & G1 & V1).
  destruct (iteration_step 7 (mkWorld (toggle_pause (globals w1)) (planets w1)))
    as (w2 & H2 & _ & _).
  { apply valid_world_keep_bodies; [exact V1 | apply V1]. }
  exists w1, w2. split; [exact H1 | split; [exact H2 |]].
  apply (paused_iteration_keeps_places 1 7 sample_world w1 w2
           (toggle_pause (globals w1)) H1); try reflexivity; [| exact H2].
  rewrite G1. reflexivity.
Defined.

Lemma last_cons_default {A : Type} (l : list A) (a d : A) :
  last (a :: l) d = last l a.
Proof.
  revert a d. induction l as [| b l' IH]; intros a d; [reflexivity |].
  change (last (a :: b :: l') d) with (last (b :: l') d).
  rewrite !IH. reflexivity.
Qed.

Lemma run_ticks_clock (now : R) (rest : list R) (w w' : World) :
  run (map Tick (now :: rest)) w = Ok w' ->
  sim_days (globals w')
  = (if paused (globals w) then sim_days (globals w)
     else sim_days (globals w)
          + (last rest now - last_time (globals w)) * TIME_SCALE (globals w))
  /\ last_time (globals w') = last rest now.
Proof.
  revert now w. induction rest as [| next rest IH]; intros now w H.
  - simpl in H. apply bind_Ok_inv in H as [w1 [Hit H]]. injection H as <-.
    apply iteration_inv in Hit as [Hg _]. rewrite Hg. cbn.
    split; [destruct (paused (globals w)); reflexivity | reflexivity].
  - change (map Tick (now :: next :: rest)) with (Tick now :: map Tick (next :: rest)) in H.
    cbn [run step] in H. apply bind_Ok_inv in H as [w1 [Hit H]].
    apply IH in H as [Hsim Hlast].
    apply iteration_inv in Hit as [Hg _].
    rewrite Hg in Hsim. cbn in Hsim.
    split.
    + rewrite Hsim, last_cons_default.
      destruct (paused (globals w)); [reflexivity | ring].
    + rewrite Hlast, last_cons_default. reflexivity.
Qed.

(** X9: the simulated time does not depend on the frame rate: over any
    number of iterations without key presses in between, [sim_days] grows
    by [TIME_SCALE] times the real time between the previous reading of the
    clock and the last one, however the frames divide that time; paused, it
    does not change. *)
Theorem clock_independent_of_frame_rate (now : R) (rest : list R) (w w' : World) :
  run (map Tick (now :: rest)) w = Ok w' ->
  (paused (globals w) = false ->
   sim_days (globals w')
   = sim_days (globals w)
     + (last rest now - last_time (globals w)) * TIME_SCALE (globals w))
  /\ (paused (globals w) = true -> sim_days (globals w') = sim_days (globals w)).
Proof.
  intros H. apply run_ticks_clock in H as [Hsim _].
  split; intros Hp; rewrite Hp in Hsim; exact Hsim.
Qed.

Lemma clock_independent_of_frame_rate_witness :
  exists w',
    run (map Tick [0.5; 0.75; 2; 3]) sample_world = Ok w'
    /\ sim_days (globals w') = 0 + (3 - 0) * 120.
Proof.
  destruct (run_returns (map Tick [0.5; 0.75; 2; 3]) sample_world sample_world_valid)
    as [w' Hw'].
  exists w'. split; [exact Hw' |].
  apply (proj1 (clock_independent_of_frame_rate 0.5 [0.75; 2; 3] sample_world w' Hw')).
  reflexivity.
Defined.

End Frames.

(** ** Orbits as curves *)

Section OrbitGeometry.

Import GreatestUniverse Model Samples.

Lemma Rabs_cos_le_1 (x : R) : Rabs (cos x) <= 1.
Proof. apply Rabs_le. pose proof (COS_bound x). lra. Qed.

Lemma Rabs_sin_le_1 (x : R) : Rabs (sin x) <= 1.
Proof. apply Rabs_le. pose proof (SIN_bound x). lra. Qed.

Lemma sqrt_le_one (x : R) : x <= 1 -> sqrt x <= 1.
Proof.
  intros Hx. rewrite <- sqrt_1. apply sqrt_le_1_alt. exact Hx.
Qed.

Lemma Rabs_scaled (r u : R) : Rabs u <= 1 -> Rabs (r * u) <= Rabs r.
Proof.
  intros Hu. rewrite Rabs_mult. pose proof (Rabs_pos r). nra.
Qed.

Lemma unit_product3 (a b c : R) :
  0 <= a <= 1 -> 0 <= b <= 1 -> 0 <= c <= 1 -> a * (b * c) <= 1.
Proof.
  intros Ha Hb Hc. assert (Hbc : 0 <= b * c <= 1) by nra. nra.
Qed.

(** X10: for a planet with a non-zero period and an eccentricity of square
    at most 1, the position computed for any simulated time is one of the
    points that [draw_orbits] plots the orbit line through, so the planet
    rides on its drawn orbit; it never leaves the box of half-width the
    orbital radius around the sun. *)
Theorem planet_rides_its_orbit (g : Globals) (p : Planet.t) (t : R) :
  Planet.period_days p <> 0 ->
  Planet.e p * Planet.e p <= 1 ->
  exists x y theta,
    returned_position (Planet.compute_orbital_position g p t) = Ok (x, y)
    /\ orbit_point g p theta = Ok (x, y)
    /\ Rabs x <= Rabs (orbital_radius g p)
    /\ Rabs y <= Rabs (orbital_radius g p).
Proof.
  intros Hper He.
  rewrite compute_orbital_position_ok by assumption.
  unfold spec_position, Spec.computeOrbitalPosition, orbit_point.
  rewrite math_sqrt_ok by lra. cbn [bind returned_position].
  do 3 eexists. split; [reflexivity |].
  split; [unfold math_cos, math_sin, math_radians, orbital_radius; reflexivity |].
  split.
  - apply Rabs_scaled. apply Rabs_cos_le_1.
  - rewrite !Rmult_assoc. apply Rabs_scaled.
    rewrite !Rabs_mult.
    assert (Hs : 0 <= sqrt (1 - Planet.e p * Planet.e p) <= 1).
    { split; [apply sqrt_pos | apply sqrt_le_one; nra]. }
    rewrite (Rabs_right (sqrt _)) by lra.
    apply unit_product3.
    + exact Hs.
    + split; [apply Rabs_pos | apply Rabs_sin_le_1].
    + split; [apply Rabs_pos | apply Rabs_cos_le_1].
Qed.

Lemma planet_rides_its_orbit_witness :
  exists x y theta,
    returned_position (Planet.compute_orbital_position (initial_globals 0) sample_planet 50)
    = Ok (x, y)
    /\ orbit_point (initial_globals 0) sample_planet theta = Ok (x, y)
    /\ Rabs x <= Rabs (orbital_radius (initial_globals 0) sample_planet)
    /\ Rabs y <= Rabs (orbital_radius (initial_globals 0) sample_planet).
Proof.
  apply (planet_rides_its_orbit (initial_globals 0) sample_planet 50).
  - simpl. lra.
  - simpl. lra.
Defined.



End OrbitGeometry.

(** ** Angles kept within a turn *)

Section Angles.

Import Model Samples.


Lemma float_mod_add (x y m r : R) :
  m <> 0 -> float_mod x m = Ok r -> float_mod (r + y) m = float_mod (x + y) m.
Proof.
  intros Hm H. rewrite float_mod_ok in H by exact Hm. injection H as <-.
  rewrite !float_mod_ok by exact Hm. f_equal.
  replace ((x - m * IZR (Zfloor (x / m)) + y) / m)
    with ((x + y) / m + IZR (- Zfloor (x / m)))
    by (rewrite opp_IZR; field; exact Hm).
  rewrite Zfloor_add_IZR, plus_IZR, opp_IZR. ring.
Qed.

Lemma solar_moon_update_ok (m : SolarSystem.Moon.t) (px py dt s : R) :
  exists ang,
    float_mod (SolarSystem.Moon.angle m
               + 360 / py_max 1 (SolarSystem.Moon.period m) * s * dt * 60) 360 = Ok ang
    /\ SolarSystem.Moon.update m (px, py) dt s
       = Ok (SolarSystem.Moon.mk (SolarSystem.Moon.name m) (SolarSystem.Moon.dist_rel m)
               (SolarSystem.Moon.size_rel m) (SolarSystem.Moon.period m) ang
               (SolarSystem.Moon.orbit_px m) (SolarSystem.Moon.radius m)
               (px + math_cos (math_radians ang) * SolarSystem.Moon.orbit_px m,
                py + math_sin (math_radians ang) * SolarSystem.Moon.orbit_px m)).
Proof.
  unfold SolarSystem.Moon.update, SolarSystem.Moon.angular_speed.
  pose proof (py_max_ge_l 1 (SolarSystem.Moon.period m)).
  rewrite float_truediv_ok by lra. cbn [bind].
  rewrite float_mod_ok by lra. cbn [bind].
  eexists. split; reflexivity.
Qed.



Lemma universe_update_position_ok (q : Universe.Planet.t) (sp : R) :
  exists ang,
    float_mod (Universe.Planet.angle q + sp) 360 = Ok ang
    /\ Universe.Planet.update_position q sp
       = Ok (Universe.Planet.mk (Universe.Planet.name q) (Universe.Planet.distance q)
               (Universe.Planet.radius q) (Universe.Planet.period q) ang
               (math_cos (math_radians ang) * Universe.Planet.distance q,
                math_sin (math_radians ang) * Universe.Planet.distance q)).
Proof.
  unfold Universe.Planet.update_position.
  rewrite float_mod_ok by lra. cbn [bind]. eexists. split; reflexivity.
Qed.



(** X13: steps add up: two successive updates by steps [s1] and [s2] leave
    a planet of [universe.py] exactly where one update by [s1 + s2] does,
    and two successive updates of a moon of [solar_system.py] over the times
    [dt1] and [dt2] leave it where one update over [dt1 + dt2] does, so the
    motion does not depend on how the frames divide the time. *)
Theorem updates_add_up :
  (forall (q q1 q2 : Universe.Planet.t) (s1 s2 : R),
      Universe.Planet.update_position q s1 = Ok q1 ->
      Universe.Planet.update_position q1 s2 = Ok q2 ->
      Universe.Planet.update_position q (s1 + s2) = Ok q2)
  /\ (forall (m m1 m2 : SolarSystem.Moon.t) (parent_pos : R * R) (dt1 dt2 s : R),
        SolarSystem.Moon.update m parent_pos dt1 s = Ok m1 ->
        SolarSystem.Moon.update m1 parent_pos dt2 s = Ok m2 ->
        SolarSystem.Moon.update m parent_pos (dt1 + dt2) s = Ok m2).
Proof.
  split.
  - intros q q1 q2 s1 s2 H1 H2. unfold Universe.Planet.update_position in *.
    apply bind_Ok_inv in H1 as [a1 [Ha1 H1]]. injection H1 as <-.
    cbn [Universe.Planet.angle Universe.Planet.name Universe.Planet.distance
         Universe.Planet.radius Universe.Planet.period] in H2.
    rewrite (float_mod_add _ s2 360 a1) in H2 by (try exact Ha1; lra).
    replace (Universe.Planet.angle q + (s1 + s2))
      with (Universe.Planet.angle q + s1 + s2) by ring.
    exact H2.
  - intros m m1 m2 [px py] dt1 dt2 s H1 H2.
    destruct (solar_moon_update_ok m px py dt1 s) as [a1 [Ha1 Hu1]].
    rewrite Hu1 in H1. injection H1 as <-.
    destruct (solar_moon_update_ok
                (SolarSystem.Moon.mk (SolarSystem.Moon.name m) (SolarSystem.Moon.dist_rel m)
                   (SolarSystem.Moon.size_rel m) (SolarSystem.Moon.period m) a1
                   (SolarSystem.Moon.orbit_px m) (SolarSystem.Moon.radius m)
                   (px + math_cos (math_radians a1) * SolarSystem.Moon.orbit_px m,
                    py + math_sin (math_radians a1) * SolarSystem.Moon.orbit_px m))
                px py dt2 s) as [a2 [Ha2 Hu2]].
    rewrite Hu2 in H2. injection H2 as <-.
    cbn [SolarSystem.Moon.angle SolarSystem.Moon.period SolarSystem.Moon.name
         SolarSystem.Moon.dist_rel SolarSystem.Moon.size_rel SolarSystem.Moon.orbit_px
         SolarSystem.Moon.radius] in *.
    destruct (solar_moon_update_ok m px py (dt1 + dt2) s) as [a3 [Ha3 Hu3]].
    rewrite Hu3.
    rewrite (float_mod_add _ _ 360 a1) in Ha2 by (try exact Ha1; lra).
    replace (SolarSystem.Moon.angle m
             + 360 / py_max 1 (SolarSystem.Moon.period m) * s * dt1 * 60
             + 360 / py_max 1 (SolarSystem.Moon.period m) * s * dt2 * 60)
      with (SolarSystem.Moon.angle m
            + 360 / py_max 1 (SolarSystem.Moon.period m) * s * (dt1 + dt2) * 60)
      in Ha2 by ring.
    rewrite Ha3 in Ha2. injection Ha2 as ->. reflexivity.
Qed.

Lemma updates_add_up_witness :
  exists q1 q2,
    Universe.Planet.update_position sample_universe_planet 350 = Ok q1
    /\ Universe.Planet.update_position q1 25 = Ok q2
    /\ Universe.Planet.update_position sample_universe_planet (350 + 25) = Ok q2.
Proof.
  destruct (universe_update_position_ok sample_universe_planet 350) as [a1 [_ H1]].
  destruct (universe_update_position_ok
              (Universe.Planet.mk (Universe.Planet.name sample_universe_planet)
                 (Universe.Planet.distance sample_universe_planet)
                 (Universe.Planet.radius sample_universe_planet)
                 (Universe.Planet.period sample_universe_planet) a1
                 (math_cos (math_radians a1) * Universe.Planet.distance sample_universe_planet,
                  math_sin (math_radians a1) * Universe.Planet.distance sample_universe_planet))
              25) as [a2 [_ H2]].
  eexists. eexists. split; [exact H1 | split; [exact H2 |]].
  apply (proj1 updates_add_up sample_universe_planet _ _ 350 25 H1 H2).
Defined.

End Angles.

(** ** solar_system.py: orbits, speeds, moons *)

Section SolarOrbits.

Import Model Samples.

(** X14: [orbital_position] of [solar_system.py] returns for every
    eccentricity, negative and huge ones included: the visual eccentricity
    is capped at 0.9 and the radicand is kept from going negative; the
    point it returns is within the orbital distance of the centre of the
    ellipse, which sits the focal distance to the left of the sun. *)
Theorem solar_orbital_position_total_bounded
    (p : SolarSystem.Planet.t) (angle_deg : option R) :
  let e_vis := py_min 0.9 (SolarSystem.Planet.ecc p * SolarSystem.ECCENTRICITY_VISUAL_SCALE) in
  let a_px := SolarSystem.Planet.distance_px p in
  exists x y,
    SolarSystem.Planet.orbital_position p angle_deg = Ok (x, y)
    /\ e_vis <= 0.9
    /\ Rabs (x + e_vis * a_px) <= Rabs a_px
    /\ Rabs y <= Rabs a_px.
Proof.
  intros e_vis a_px. unfold SolarSystem.Planet.orbital_position.
  fold e_vis. fold a_px.
  rewrite math_sqrt_ok by apply py_max_ge_l. cbn [bind].
  do 2 eexists. split; [reflexivity |].
  split; [| split].
  - subst e_vis. unfold py_min. destruct (Rlt_dec _ _); lra.
  - match goal with
    | |- Rabs (a_px * math_cos ?r - _ + _) <= _ =>
        replace (a_px * math_cos r - e_vis * a_px + e_vis * a_px)
          with (a_px * cos r) by (unfold math_cos; ring)
    end.
    apply Rabs_scaled. apply Rabs_cos_le_1.
  - rewrite !Rmult_assoc. apply Rabs_scaled. rewrite !Rabs_mult.
    assert (Hs : 0 <= sqrt (py_max 0 (1 - e_vis * e_vis)) <= 1).
    { split; [apply sqrt_pos |]. apply sqrt_le_one.
      unfold py_max. destruct (Rlt_dec _ _); nra. }
    rewrite (Rabs_right (sqrt _)) by lra.
    apply unit_product3.
    + exact Hs.
    + split; [apply Rabs_pos | apply Rabs_sin_le_1].
    + split; [apply Rabs_pos | apply Rabs_cos_le_1].
Qed.

Lemma kepler_period_positive (a_au : nonnegreal) :
  0 < nonneg a_au ->
  SolarSystem.kepler_period a_au
  = Ok (Rpower (nonneg a_au) (1.5 * SolarSystem.KEPLER_COMPRESSION))
  /\ 0 < Rpower (nonneg a_au) (1.5 * SolarSystem.KEPLER_COMPRESSION).
Proof.
  intros Ha. unfold SolarSystem.kepler_period, float_pow.
  destruct (Req_dec_T (nonneg a_au) 0); [lra |].
  split; [reflexivity | apply exp_pos].
Qed.

Lemma solar_init_omega (name : string) (a_au : nonnegreal) (size_rel ecc incl : R)
    (moons_raw : list (string * R * R * R)) (rand_angle : R) (rand_moon : nat -> R) :
  0 < nonneg a_au ->
  exists p,
    SolarSystem.Planet.init name a_au size_rel ecc incl moons_raw rand_angle rand_moon = Ok p
    /\ SolarSystem.Planet.omega p
       = 360 / (Rpower (nonneg a_au) (1.5 * SolarSystem.KEPLER_COMPRESSION) * 60)
         * (1 + 1 / py_max 0.1 (nonneg a_au))
    /\ SolarSystem.Planet.radius p
       = py_max SolarSystem.MIN_PLANET_PIXEL (size_rel * SolarSystem.PLANET_SIZE_SCALE)
    /\ SolarSystem.Planet.moons p
       = SolarSystem.Planet.build_moons moons_raw
           (py_max SolarSystem.MIN_PLANET_PIXEL (size_rel * SolarSystem.PLANET_SIZE_SCALE))
           rand_moon 0.
Proof.
  intros Ha. destruct (kepler_period_positive a_au Ha) as [Hk Hpos].
  unfold SolarSystem.Planet.init. rewrite Hk. cbn [bind].
  rewrite float_truediv_ok by lra. cbn [bind].
  pose proof (py_max_ge_l 0.1 (nonneg a_au)).
  rewrite float_truediv_ok by lra. cbn [bind].
  eexists. repeat split.
Qed.

(** X15: a planet of [solar_system.py] at a positive distance gets a
    positive angular speed, a planet farther out gets a strictly smaller
    one, and a distance of 0 makes [__init__] fail with
    [ZeroDivisionError]. *)
Theorem solar_outer_planets_move_slower
    (name1 name2 : string) (a1 a2 : nonnegreal) (size1 size2 ecc1 ecc2 incl1 incl2 : R)
    (moons1 moons2 : list (string * R * R * R)) (ang1 ang2 : R) (rm1 rm2 : nat -> R) :
  (nonneg a1 = 0 ->
   SolarSystem.Planet.init name1 a1 size1 ecc1 incl1 moons1 ang1 rm1
   = Raise ZeroDivisionError)
  /\ (0 < nonneg a1 -> nonneg a1 < nonneg a2 ->
      exists p1 p2,
        SolarSystem.Planet.init name1 a1 size1 ecc1 incl1 moons1 ang1 rm1 = Ok p1
        /\ SolarSystem.Planet.init name2 a2 size2 ecc2 incl2 moons2 ang2 rm2 = Ok p2
        /\ 0 < SolarSystem.Planet.omega p2 < SolarSystem.Planet.omega p1).
Proof.
  split.
  - intros Hz. unfold SolarSystem.Planet.init, SolarSystem.kepler_period, float_pow.
    destruct (Req_dec_T (nonneg a1) 0); [| contradiction].
    unfold SolarSystem.KEPLER_COMPRESSION.
    destruct (Rlt_dec 0 (1.5 * 0.9)); [| lra]. cbn [bind].
    replace (0 * 60) with 0 by ring. rewrite float_truediv_zero. reflexivity.
  - intros H1 H12.
    destruct (solar_init_omega name1 a1 size1 ecc1 incl1 moons1 ang1 rm1 H1)
      as (p1 & Hp1 & Ho1 & _).
    destruct (solar_init_omega name2 a2 size2 ecc2 incl2 moons2 ang2 rm2 ltac:(lra))
      as (p2 & Hp2 & Ho2 & _).
    exists p1, p2. split; [exact Hp1 | split; [exact Hp2 |]].
    rewrite Ho1, Ho2.
    set (c := 1.5 * SolarSystem.KEPLER_COMPRESSION).
    assert (Hc : 0 < c) by (unfold c, SolarSystem.KEPLER_COMPRESSION; lra).
    assert (Hk1 : 0 < Rpower (nonneg a1) c) by apply exp_pos.
    assert (Hk : Rpower (nonneg a1) c < Rpower (nonneg a2) c)
      by (apply Rlt_Rpower_l; lra).
    assert (Hm1 : 0.1 <= py_max 0.1 (nonneg a1)) by apply py_max_ge_l.
    assert (Hm : py_max 0.1 (nonneg a1) <= py_max 0.1 (nonneg a2)).
    { rewrite !py_max_Rmax. apply Rle_max_compat_l. lra. }
    assert (Hf1 : 0 < 360 / (Rpower (nonneg a2) c * 60)
                  < 360 / (Rpower (nonneg a1) c * 60)).
    { split.
      - apply Rdiv_lt_0_compat; lra.
      - unfold Rdiv. apply Rmult_lt_compat_l; [lra |].
        apply Rinv_lt_contravar; nra. }
    assert (Hf2 : 1 < 1 + 1 / py_max 0.1 (nonneg a2)
                  <= 1 + 1 / py_max 0.1 (nonneg a1)).
    { split.
      - assert (0 < 1 / py_max 0.1 (nonneg a2)) by (apply Rdiv_lt_0_compat; lra). lra.
      - apply Rplus_le_compat_l. unfold Rdiv. apply Rmult_le_compat_l; [lra |].
        apply Rinv_le_contravar; lra. }
    split; nra.
Qed.

Lemma solar_outer_planets_move_slower_witness :
  SolarSystem.Planet.init "Void" no_distance 1 0 0 [] 0 (fun _ => 0)
  = Raise ZeroDivisionError
  /\ exists p1 p2,
       SolarSystem.Planet.init "Earth" earth_a 1 0.0167 0 [luna_raw] 0 (fun _ => 0) = Ok p1
       /\ SolarSystem.Planet.init "Mars" mars_a 0.53 0.0934 1.85 [] 0 (fun _ => 0) = Ok p2
       /\ 0 < SolarSystem.Planet.omega p2 < SolarSystem.Planet.omega p1.
Proof.
  split.
  - apply (proj1 (solar_outer_planets_move_slower "Void" "Void" no_distance no_distance
                    1 1 0 0 0 0 [] [] 0 0 (fun _ => 0) (fun _ => 0))).
    reflexivity.
  - apply (proj2 (solar_outer_planets_move_slower "Earth" "Mars" earth_a mars_a
                    1 0.53 0.0167 0.0934 0 1.85 [luna_raw] [] 0 0
                    (fun _ => 0) (fun _ => 0))).
    + simpl. lra.
    + simpl. lra.
Defined.

Lemma build_moons_orbits (moons_raw : list (string * R * R * R)) (parent_radius : R)
    (rand_moon : nat -> R) (i : nat) :
  Forall (fun m => parent_radius * 1.6 <= SolarSystem.Moon.orbit_px m)
         (SolarSystem.Planet.build_moons moons_raw parent_radius rand_moon i).
Proof.
  revert i. induction moons_raw as [| [[[mname dist] size] period] rest IH]; intros i.
  - constructor.
  - simpl. constructor; [| apply IH].
    unfold SolarSystem.Moon.init. cbn. apply py_max_ge_l.
Qed.

(** X16: a moon of [solar_system.py] stays at the distance [orbit_px] from
    the position of its parent at every update, and the moons that
    [Planet.__init__] builds have an [orbit_px] of at least 1.6 times the
    parent's visual radius, which is at least 3 pixels. *)
Theorem solar_moon_keeps_its_distance :
  (forall (m m' : SolarSystem.Moon.t) (px py dt s : R),
      0 <= SolarSystem.Moon.orbit_px m ->
      SolarSystem.Moon.update m (px, py) dt s = Ok m' ->
      math_hypot (fst (SolarSystem.Moon.pos m') - px) (snd (SolarSystem.Moon.pos m') - py)
      = SolarSystem.Moon.orbit_px m
      /\ SolarSystem.Moon.orbit_px m' = SolarSystem.Moon.orbit_px m)
  /\ (forall (name : string) (a_au : nonnegreal) (size_rel ecc incl : R)
             (moons_raw : list (string * R * R * R)) (rand_angle : R)
             (rand_moon : nat -> R) (p : SolarSystem.Planet.t),
        SolarSystem.Planet.init name a_au size_rel ecc incl moons_raw rand_angle rand_moon
        = Ok p ->
        3 <= SolarSystem.Planet.radius p
        /\ length (SolarSystem.Planet.moons p) = length moons_raw
        /\ Forall (fun m => SolarSystem.Planet.radius p * 1.6 <= SolarSystem.Moon.orbit_px m)
                  (SolarSystem.Planet.moons p)).
Proof.
  split.
  - intros m m' px py dt s Hr H.
    destruct (solar_moon_update_ok m px py dt s) as [ang [_ Hup]].
    rewrite Hup in H. injection H as <-. cbn. split; [| reflexivity].
    unfold math_hypot, math_cos, math_sin.
    match goal with
    | |- sqrt ((px + ?c * ?r - px) * _ + (py + ?s * ?r - py) * _) = _ =>
        replace ((px + c * r - px) * (px + c * r - px)
                 + (py + s * r - py) * (py + s * r - py))
          with ((r * c) * (r * c) + (r * s) * (r * s)) by ring
    end.
    apply circle_distance; [exact Hr | apply sin_cos_unit].
  - intros name a_au size_rel ecc incl moons_raw rand_angle rand_moon p H.
    unfold SolarSystem.Planet.init in H.
    apply bind_Ok_inv in H as [k [_ H]].
    apply bind_Ok_inv in H as [om [_ H]].
    apply bind_Ok_inv in H as [inv [_ H]].
    injection H as <-. cbn. split; [| split].
    + apply py_max_ge_l.
    + generalize 0%nat. induction moons_raw as [| [[[mn d] sz] per] rest IH]; intros i.
      * reflexivity.
      * simpl. rewrite IH. reflexivity.
    + apply build_moons_orbits.
Qed.

Lemma solar_moon_keeps_its_distance_witness :
  exists m',
    SolarSystem.Moon.update (solar_moon 27.3) (100, 50) 0.016 1 = Ok m'
    /\ math_hypot (fst (SolarSystem.Moon.pos m') - 100) (snd (SolarSystem.Moon.pos m') - 50)
       = SolarSystem.Moon.orbit_px (solar_moon 27.3).
Proof.
  destruct (solar_moon_update_ok (solar_moon 27.3) 100 50 0.016 1) as [ang [_ Hup]].
  eexists. split; [exact Hup |].
  apply (proj1 solar_moon_keeps_its_distance (solar_moon 27.3) _ 100 50 0.016 1).
  - simpl. lra.
  - exact Hup.
Defined.

End SolarOrbits.

(** ** solar_system.py: comets, popups and clicks *)

Section SolarComets.

Import Model Samples.

Lemma comet_update_alive (c : SolarSystem.Comet.t) (dt s : R) :
  SolarSystem.Comet.alive c = true ->
  let new_x := fst (SolarSystem.Comet.pos c) + SolarSystem.Comet.speed c * dt * s in
  let new_y := math_sin (new_x / 80) * (SolarSystem.Comet.b c * 0.6) in
  let tr := append_bounded SolarSystem.COMET_TRAIL_LENGTH (SolarSystem.Comet.trail c)
              (new_x, new_y) in
  SolarSystem.Comet.update c dt s
  = Ok (SolarSystem.Comet.mk (SolarSystem.Comet.a c) (SolarSystem.Comet.b c)
          (SolarSystem.Comet.speed c)
          (if Rlt_dec SolarSystem.SCREEN_WIDTH (Rabs new_x) then false
           else if Rlt_dec SolarSystem.SCREEN_HEIGHT (Rabs new_y) then false
           else true)
          (new_x, new_y) tr).
Proof.
  intros Halive new_x new_y tr. unfold SolarSystem.Comet.update.
  rewrite Halive. cbn [negb].
  subst tr new_y new_x. destruct (SolarSystem.Comet.pos c) as [px py]. cbn [fst].
  rewrite float_truediv_ok by lra. cbn [bind].
  destruct (Rlt_dec _ _); [| destruct (Rlt_dec _ _)];
    unfold SolarSystem.Comet.destroy; cbn; rewrite ?Halive; reflexivity.
Qed.

(** X17: a comet that is no longer alive is left untouched by [update]; a
    live comet moves right by speed × dt × speed multiplier, its height
    never exceeds 0.6 times [b] in absolute value, the point it reaches is
    the newest of its trail, and it stops being alive exactly when that
    point is more than the screen width or height away from the origin; a
    comet whose [b] comes from [__init__] (6 to 18 AU_PIXELS) can only leave
    through the sides. *)
Theorem comet_flight (c : SolarSystem.Comet.t) (dt s : R) :
  (SolarSystem.Comet.alive c = false -> SolarSystem.Comet.update c dt s = Ok c)
  /\ (SolarSystem.Comet.alive c = true ->
      exists c',
        SolarSystem.Comet.update c dt s = Ok c'
        /\ fst (SolarSystem.Comet.pos c')
           = fst (SolarSystem.Comet.pos c) + SolarSystem.Comet.speed c * dt * s
        /\ Rabs (snd (SolarSystem.Comet.pos c')) <= 0.6 * Rabs (SolarSystem.Comet.b c)
        /\ SolarSystem.Comet.b c' = SolarSystem.Comet.b c
        /\ ((length (SolarSystem.Comet.trail c) <= SolarSystem.COMET_TRAIL_LENGTH)%nat ->
            last (SolarSystem.Comet.trail c') (0, 0) = SolarSystem.Comet.pos c')
        /\ (SolarSystem.Comet.alive c' = false <->
            SolarSystem.SCREEN_WIDTH < Rabs (fst (SolarSystem.Comet.pos c'))
            \/ SolarSystem.SCREEN_HEIGHT < Rabs (snd (SolarSystem.Comet.pos c')))
        /\ (Rabs (SolarSystem.Comet.b c) <= 18 * SolarSystem.AU_PIXELS ->
            (SolarSystem.Comet.alive c' = false <->
             SolarSystem.SCREEN_WIDTH < Rabs (fst (SolarSystem.Comet.pos c'))))).
Proof.
  split.
  - intros Hdead. unfold SolarSystem.Comet.update. rewrite Hdead. reflexivity.
  - intros Halive. rewrite (comet_update_alive c dt s Halive).
    set (new_x := fst (SolarSystem.Comet.pos c) + SolarSystem.Comet.speed c * dt * s).
    set (new_y := math_sin (new_x / 80) * (SolarSystem.Comet.b c * 0.6)).
    assert (Hy : Rabs new_y <= 0.6 * Rabs (SolarSystem.Comet.b c)).
    { unfold new_y, math_sin. rewrite !Rabs_mult.
      rewrite (Rabs_right 0.6) by lra.
      pose proof (Rabs_sin_le_1 (new_x / 80)).
      pose proof (Rabs_pos (sin (new_x / 80))).
      pose proof (Rabs_pos (SolarSystem.Comet.b c)). nra. }
    eexists. split; [reflexivity |]. cbn.
    split; [reflexivity | split; [exact Hy | split; [reflexivity | split; [| split]]]].
    + intros Hlen. apply append_bounded_last;
        [unfold SolarSystem.COMET_TRAIL_LENGTH; lia | exact Hlen].
    + destruct (Rlt_dec SolarSystem.SCREEN_WIDTH (Rabs new_x)) as [Hx | Hx];
        [| destruct (Rlt_dec SolarSystem.SCREEN_HEIGHT (Rabs new_y)) as [Hh | Hh]].
      * split; [intros _; left; exact Hx | reflexivity].
      * split; [intros _; right; exact Hh | reflexivity].
      * split; [discriminate | intros [H | H]; contradiction].
    + intros Hb.
      assert (Hlow : Rabs new_y < SolarSystem.SCREEN_HEIGHT).
      { unfold SolarSystem.SCREEN_HEIGHT, SolarSystem.AU_PIXELS,
          SolarSystem.GLOBAL_SCALE in *. lra. }
      destruct (Rlt_dec SolarSystem.SCREEN_WIDTH (Rabs new_x)) as [Hx | Hx];
        [| destruct (Rlt_dec SolarSystem.SCREEN_HEIGHT (Rabs new_y)) as [Hh | Hh]].
      * split; [intros _; exact Hx | reflexivity].
      * lra.
      * split; [discriminate | contradiction].
Qed.

Lemma comet_flight_witness :
  SolarSystem.Comet.update (SolarSystem.Comet.destroy sample_comet) 0.016 1
  = Ok (SolarSystem.Comet.destroy sample_comet)
  /\ exists c',
       SolarSystem.Comet.update sample_comet 0.016 1 = Ok c'
       /\ fst (SolarSystem.Comet.pos c')
          = fst (SolarSystem.Comet.pos sample_comet)
            + SolarSystem.Comet.speed sample_comet * 0.016 * 1.
Proof.
  split.
  - apply (proj1 (comet_flight (SolarSystem.Comet.destroy sample_comet) 0.016 1)).
    reflexivity.
  - destruct (proj2 (comet_flight sample_comet 0.016 1)) as (c' & Hc' & Hx & _).
    + reflexivity.
    + exists c'. split; [exact Hc' | exact Hx].
Defined.

(** X18: a frame's pass over the comets always completes; it keeps, in
    order, exactly the comets that were alive when it began, each one
    updated, and drops the others, so the list never grows in a frame. *)
Theorem dead_comets_leave_the_list (cs : list SolarSystem.Comet.t) (dt s : R) :
  exists cs',
    SolarSystem.update_comets cs dt s = Ok cs'
    /\ Forall2 (fun c c' => SolarSystem.Comet.update c dt s = Ok c')
               (filter SolarSystem.Comet.alive cs) cs'
    /\ (length cs' <= length cs)%nat.
Proof.
  induction cs as [| c rest (rest' & Hrest & Hall & Hlen)]; simpl.
  - exists []. repeat split; constructor.
  - destruct (SolarSystem.Comet.alive c) eqn:Halive.
    + rewrite (comet_update_alive c dt s Halive). cbn [bind]. rewrite Hrest. cbn [bind].
      eexists. split; [reflexivity | split].
      * constructor; [apply comet_update_alive; exact Halive | exact Hall].
      * simpl. lia.
    + exists rest'. split; [exact Hrest | split; [exact Hall | lia]].
Qed.

Lemma Zfloor_IZR_half (n : Z) : Zfloor (IZR (2 * n) / 2) = n.
Proof.
  apply Zfloor_eq. rewrite mult_IZR. lra.
Qed.

(** X19: the popup rectangle that [show_info_popup] computes lies within
    the window, 20 pixels or more from its edges, wherever the planet is:
    in [solar_system.py] (220 by 90 in a 1200 by 800 window) and in
    [universe.py] (180 by 70 in a 1000 by 700 window). *)
Theorem popups_stay_on_screen (px py : R) :
  (let '(box_x, box_y) := SolarSystem.popup_box px py in
   -580 <= box_x /\ box_x + 220 <= 580 /\ -380 <= box_y - 90 /\ box_y <= 360)
  /\ (let '(box_x, box_y) := Universe.popup_box px py in
      -480 <= box_x /\ box_x + 180 <= 480 /\ -330 <= box_y - 70 /\ box_y <= 310).
Proof.
  assert (Hw : SolarSystem.popup_half_w = 580).
  { unfold SolarSystem.popup_half_w, SolarSystem.SCREEN_WIDTH.
    change 1200 with (IZR (2 * 600)). rewrite Zfloor_IZR_half. lra. }
  assert (Hh : SolarSystem.popup_half_h = 380).
  { unfold SolarSystem.popup_half_h, SolarSystem.SCREEN_HEIGHT.
    change 800 with (IZR (2 * 400)). rewrite Zfloor_IZR_half. lra. }
  split.
  - unfold SolarSystem.popup_box. rewrite Hw, Hh.
    unfold SolarSystem.popup_box_w, SolarSystem.popup_box_h.
    rewrite !py_max_Rmax, !py_min_Rmin.
    unfold Rmax, Rmin.
    repeat split; repeat destruct (Rle_dec _ _); lra.
  - unfold Universe.popup_box, Universe.popup_half_w, Universe.popup_half_h,
      Universe.popup_box_w, Universe.popup_box_h.
    replace (IZR (Universe.SCREEN_WIDTH / 2 - 20)) with 480 by reflexivity.
    replace (IZR (Universe.SCREEN_HEIGHT / 2 - 20)) with 330 by reflexivity.
    rewrite !py_max_Rmax, !py_min_Rmin.
    unfold Rmax, Rmin.
    repeat split; repeat destruct (Rle_dec _ _); lra.
Qed.

Lemma solar_is_clicked_near (p : SolarSystem.Planet.t) (x y : R) :
  math_hypot (fst (SolarSystem.Planet.pos p) - x) (snd (SolarSystem.Planet.pos p) - y) <= 10 ->
  SolarSystem.Planet.is_clicked p x y = true.
Proof.
  intros Hd. unfold SolarSystem.Planet.is_clicked.
  destruct (SolarSystem.Planet.pos p) as [px py]. cbn [fst snd] in Hd.
  pose proof (py_max_ge_l 10 (SolarSystem.Planet.radius p)).
  destruct (Rle_dec _ _); [reflexivity | lra].
Qed.

(** X20: in [solar_system.py] a click within 10 pixels of a planet's
    turtle always opens a popup, however small the planet is drawn, and the
    popup is that of the first planet of the list whose reach (the larger of
    10 pixels and its radius) contains the click; a click out of every
    planet's reach opens none. *)
Theorem solar_click_reaches_small_planets
    (planets : list SolarSystem.Planet.t) (x y : R) :
  (forall p,
      In p planets ->
      math_hypot (fst (SolarSystem.Planet.pos p) - x) (snd (SolarSystem.Planet.pos p) - y)
      <= 10 ->
      exists q, SolarSystem.on_click planets x y = Some q)
  /\ (forall q,
        SolarSystem.on_click planets x y = Some q ->
        exists before after,
          planets = before ++ q :: after
          /\ SolarSystem.Planet.is_clicked q x y = true
          /\ Forall (fun p => SolarSystem.Planet.is_clicked p x y = false) before)
  /\ (SolarSystem.on_click planets x y = None <->
      Forall (fun p => SolarSystem.Planet.is_clicked p x y = false) planets).
Proof.
  split; [| split].
  - intros p Hin Hd. apply solar_is_clicked_near in Hd.
    induction planets as [| p0 rest IH]; [contradiction |].
    simpl. destruct (SolarSystem.Planet.is_clicked p0 x y) eqn:E0.
    + eexists. reflexivity.
    + destruct Hin as [-> | Hin]; [congruence | apply IH; exact Hin].
  - induction planets as [| p0 rest IH]; simpl; intros q H; [discriminate |].
    destruct (SolarSystem.Planet.is_clicked p0 x y) eqn:E0.
    + injection H as <-. exists [], rest. repeat split; [exact E0 | constructor].
    + destruct (IH q H) as (before & after & -> & Hq & Hbefore).
      exists (p0 :: before), after. repeat split; [exact Hq |].
      constructor; assumption.
  - induction planets as [| p0 rest IH]; simpl.
    + split; [constructor | reflexivity].
    + destruct (SolarSystem.Planet.is_clicked p0 x y) eqn:E0.
      * split; [discriminate |]. intros H. inversion H; congruence.
      * rewrite IH. split; [intros H; constructor; assumption |].
        intros H. inversion H; assumption.
Qed.

Lemma solar_click_reaches_small_planets_witness :
  exists q, SolarSystem.on_click [sample_solar_planet] 6 8 = Some q.
Proof.
  apply (proj1 (solar_click_reaches_small_planets [sample_solar_planet] 6 8)
           sample_solar_planet).
  - left. reflexivity.
  - unfold math_hypot. simpl.
    replace ((0 - 6) * (0 - 6) + (0 - 8) * (0 - 8)) with (10 * 10) by lra.
    rewrite sqrt_square by lra. lra.
Defined.

End SolarComets.

(** ** universe.py: angular speeds *)

Section UniverseSpeeds.

Import Model Samples.

Lemma universe_angular_speed_value (period_days : nonnegreal) :
  0 < nonneg period_days ->
  Universe.angular_speed_for_period period_days
  = Ok (360 / (Rpower (nonneg period_days) 0.32 / Rpower 365 0.32
               * Universe.EARTH_BASE_FRAMES))
  /\ 0 < Rpower (nonneg period_days) 0.32 / Rpower 365 0.32 * Universe.EARTH_BASE_FRAMES.
Proof.
  intros Hp.
  assert (Hn : 0 < Rpower (nonneg period_days) 0.32) by apply exp_pos.
  assert (Hd : 0 < Rpower 365 0.32) by apply exp_pos.
  assert (Hf : 0 < Rpower (nonneg period_days) 0.32 / Rpower 365 0.32
                   * Universe.EARTH_BASE_FRAMES).
  { unfold Universe.EARTH_BASE_FRAMES, Universe.TIME_STEP.
    apply Rmult_lt_0_compat; [apply Rdiv_lt_0_compat; assumption | lra]. }
  split; [| exact Hf].
  unfold Universe.angular_speed_for_period, float_pow. cbn [nonneg].
  destruct (Req_dec_T (nonneg period_days) 0); [lra |].
  destruct (Req_dec_T 365 0); [lra |]. cbn [bind].
  rewrite float_truediv_ok by lra. cbn [bind].
  destruct (Rle_dec _ _); [lra |].
  apply float_truediv_ok. lra.
Qed.

(** X21: in [universe.py] a planet with a shorter period gets a strictly
    larger angular speed, every positive period gets a positive one, a
    period of 365 days gets half a degree per frame, and a period of 0 takes
    the fallback of 0.1 instead of dividing by zero. *)
Theorem universe_shorter_period_turns_faster (p1 p2 : nonnegreal) :
  (nonneg p1 = 0 -> Universe.angular_speed_for_period p1 = Ok 0.1)
  /\ Universe.angular_speed_for_period earth_days = Ok 0.5
  /\ (0 < nonneg p1 -> nonneg p1 < nonneg p2 ->
      exists v1 v2,
        Universe.angular_speed_for_period p1 = Ok v1
        /\ Universe.angular_speed_for_period p2 = Ok v2
        /\ 0 < v2 < v1).
Proof.
  split; [| split].
  - intros Hz. unfold Universe.angular_speed_for_period, float_pow. cbn [nonneg].
    destruct (Req_dec_T (nonneg p1) 0); [| contradiction].
    destruct (Rlt_dec 0 0.32); [| lra].
    destruct (Req_dec_T 365 0); [lra |]. cbn [bind].
    assert (Hd : 0 < Rpower 365 0.32) by apply exp_pos.
    rewrite float_truediv_ok by lra. cbn [bind].
    destruct (Rle_dec _ _) as [_ | Hn]; [reflexivity |].
    exfalso. apply Hn. unfold Rdiv. rewrite !Rmult_0_l. lra.
  - destruct (universe_angular_speed_value earth_days) as [Hv _]; [simpl; lra |].
    rewrite Hv. f_equal. cbn [nonneg earth_days].
    assert (Hd : 0 < Rpower 365 0.32) by apply exp_pos.
    replace (Rpower 365 0.32 / Rpower 365 0.32) with 1 by (field; lra).
    unfold Universe.EARTH_BASE_FRAMES, Universe.TIME_STEP. lra.
  - intros H1 H12.
    destruct (universe_angular_speed_value p1 H1) as [Hv1 Hf1].
    destruct (universe_angular_speed_value p2 ltac:(lra)) as [Hv2 Hf2].
    rewrite Hv1, Hv2. do 2 eexists. split; [reflexivity | split; [reflexivity |]].
    assert (Hk : Rpower (nonneg p1) 0.32 < Rpower (nonneg p2) 0.32)
      by (apply Rlt_Rpower_l; lra).
    assert (Hd : 0 < Rpower 365 0.32) by apply exp_pos.
    assert (Hlt : Rpower (nonneg p1) 0.32 / Rpower 365 0.32 * Universe.EARTH_BASE_FRAMES
                  < Rpower (nonneg p2) 0.32 / Rpower 365 0.32 * Universe.EARTH_BASE_FRAMES).
    { unfold Universe.EARTH_BASE_FRAMES, Universe.TIME_STEP.
      apply Rmult_lt_compat_r; [lra |].
      unfold Rdiv. apply Rmult_lt_compat_r; [apply Rinv_0_lt_compat; exact Hd | exact Hk]. }
    split.
    + apply Rdiv_lt_0_compat; lra.
    + unfold Rdiv at 1 3. apply Rmult_lt_compat_l; [lra |].
      apply Rinv_lt_contravar; [apply Rmult_lt_0_compat; assumption | exact Hlt].
Qed.

Lemma universe_shorter_period_turns_faster_witness :
  Universe.angular_speed_for_period no_distance = Ok 0.1
  /\ exists v1 v2,
       Universe.angular_speed_for_period earth_days = Ok v1
       /\ Universe.angular_speed_for_period mars_days = Ok v2
       /\ 0 < v2 < v1.
Proof.
  split.
  - apply (proj1 (universe_shorter_period_turns_faster no_distance no_distance)).
    reflexivity.
  - apply (proj2 (proj2 (universe_shorter_period_turns_faster earth_days mars_days))).
    + simpl. lra.
    + simpl. lra.
Defined.

End UniverseSpeeds.

(** ** Hexadecimal colours *)

Section Colours.

Import Model Samples.

Lemma channels_checked (f : Z -> bool) :
  forallb f (map Z.of_nat (seq 0 256)) = true ->
  forall n, channel n -> f n = true.
Proof.
  intros Hall n [Hlo Hhi].
  rewrite forallb_forall in Hall. apply Hall.
  apply in_map_iff. exists (Z.to_nat n). split; [lia |].
  apply in_seq. lia.
Qed.

Lemma format_02x_channel (n : Z) :
  channel n ->
  exists c1 c2,
    format_02x n = String c1 (String c2 EmptyString)
    /\ Ascii.eqb c1 "#"%char = false
    /\ int16 (String c1 (String c2 EmptyString)) = Ok n.
Proof.
  intros Hn.
  pose (check := fun n : Z =>
    match format_02x n with
    | String c1 (String c2 EmptyString) =>
        negb (Ascii.eqb c1 "#"%char)
        && match int16 (String c1 (String c2 EmptyString)) with
           | Ok v => Z.eqb v n
           | Raise _ => false
           end
    | _ => false
    end).
  assert (Hcheck : check n = true).
  { apply channels_checked; [vm_compute; reflexivity | exact Hn]. }
  unfold check in Hcheck.
  destruct (format_02x n) as [| c1 [| c2 [| c3 rest]]]; try discriminate.
  exists c1, c2. split; [reflexivity |].
  apply andb_prop in Hcheck as [Hhash Hint].
  split; [destruct (Ascii.eqb c1 "#"%char); [discriminate | reflexivity] |].
  destruct (int16 (String c1 (String c2 EmptyString))) as [v | err]; [| discriminate].
  apply Z.eqb_eq in Hint. subst v. reflexivity.
Qed.

Lemma hex_to_rgb_of_channels (r g b : Z) :
  channel r -> channel g -> channel b ->
  ColorMixer.hex_to_rgb (ColorMixer.rgb_to_hex (r, g, b)) = Ok (r, g, b).
Proof.
  intros Hr Hg Hb.
  destruct (format_02x_channel r Hr) as (r1 & r2 & Er & Hhash & Ir).
  destruct (format_02x_channel g Hg) as (g1 & g2 & Eg & _ & Ig).
  destruct (format_02x_channel b Hb) as (b1 & b2 & Eb & _ & Ib).
  unfold ColorMixer.hex_to_rgb, ColorMixer.rgb_to_hex. rewrite Er, Eg, Eb.
  cbn [append lstrip_char]. rewrite Ascii.eqb_refl, Hhash.
  unfold slice2. cbn [substring]. rewrite Ir, Ig, Ib. reflexivity.
Qed.

(** X22: writing a colour of three channels in 0..255 with [rgb_to_hex]
    and reading it back with [hex_to_rgb] gives the channels again. *)
Theorem hex_colour_round_trip (rgb : Z * Z * Z) :
  colour rgb -> ColorMixer.hex_to_rgb (ColorMixer.rgb_to_hex rgb) = Ok rgb.
Proof.
  destruct rgb as [[r g] b]. intros (Hr & Hg & Hb).
  apply hex_to_rgb_of_channels; assumption.
Qed.

Lemma hex_colour_round_trip_witness :
  ColorMixer.hex_to_rgb (ColorMixer.rgb_to_hex (255, 0, 127)%Z) = Ok (255, 0, 127)%Z.
Proof.
  apply (hex_colour_round_trip (255, 0, 127)%Z).
  unfold colour, channel. lia.
Defined.

Lemma int16_raises_ValueError (s : string) (err : PyError) :
  int16 s = Raise err -> err = ValueError.
Proof.
  unfold int16.
  repeat match goal with
         | |- context [match ?x with _ => _ end] => destruct x
         end;
    intros H; try discriminate; injection H as <-; reflexivity.
Qed.

Lemma hex_to_rgb_raises_ValueError (s : string) (err : PyError) :
  ColorMixer.hex_to_rgb s = Raise err -> err = ValueError.
Proof.
  unfold ColorMixer.hex_to_rgb.
  destruct (int16 (slice2 0 _)) eqn:E0; cbn [bind];
    [| intros H; injection H as <-; eapply int16_raises_ValueError; exact E0].
  destruct (int16 (slice2 2 _)) eqn:E2; cbn [bind];
    [| intros H; injection H as <-; eapply int16_raises_ValueError; exact E2].
  destruct (int16 (slice2 4 _)) eqn:E4; cbn [bind];
    [discriminate | intros H; injection H as <-; eapply int16_raises_ValueError; exact E4].
Qed.

Lemma hex_to_rgb_short (s : string) :
  (String.length (lstrip_char "#"%char s) <= 4)%nat ->
  ColorMixer.hex_to_rgb s = Raise ValueError.
Proof.
  intros Hlen. destruct (ColorMixer.hex_to_rgb s) as [rgb | err] eqn:E.
  - exfalso. unfold ColorMixer.hex_to_rgb in E.
    apply bind_Ok_inv in E as [r [_ E]].
    apply bind_Ok_inv in E as [g [_ E]].
    apply bind_Ok_inv in E as [b [Hb _]].
    assert (Hempty : slice2 4 (lstrip_char "#"%char s) = EmptyString).
    { unfold slice2.
      destruct (lstrip_char "#"%char s) as [| c1 [| c2 [| c3 [| c4 [| c5 rest]]]]];
        try reflexivity.
      simpl in Hlen. lia. }
    rewrite Hempty in Hb. discriminate.
  - f_equal. eapply hex_to_rgb_raises_ValueError. exact E.
Qed.

Lemma Zdiv2_between (a b : Z) :
  channel a -> channel b ->
  channel ((a + b) / 2) /\ (Z.min a b <= (a + b) / 2 <= Z.max a b)%Z.
Proof.
  unfold channel. intros Ha Hb.
  pose proof (Z.div_mod (a + b) 2 ltac:(lia)).
  pose proof (Z.mod_pos_bound (a + b) 2 ltac:(lia)). lia.
Qed.

(** X23: [blend_colors] does not depend on the order of its arguments;
    for two colours written by [rgb_to_hex] from channels in 0..255 it
    returns the colour whose channels are the halved sums, each rounded
    down and lying between the two inputs, so a colour blended with itself
    is itself; a string with fewer than five characters after its leading
    [#] signs, the empty one included, makes it raise [ValueError]. *)
Theorem blend_colors_averages :
  (forall c1 c2 : string, ColorMixer.blend_colors c1 c2 = ColorMixer.blend_colors c2 c1)
  /\ (forall r1 g1 b1 r2 g2 b2 : Z,
        colour (r1, g1, b1) -> colour (r2, g2, b2) ->
        ColorMixer.blend_colors (ColorMixer.rgb_to_hex (r1, g1, b1))
                                (ColorMixer.rgb_to_hex (r2, g2, b2))
        = Ok (ColorMixer.rgb_to_hex ((r1 + r2) / 2, (g1 + g2) / 2, (b1 + b2) / 2)%Z)
        /\ colour ((r1 + r2) / 2, (g1 + g2) / 2, (b1 + b2) / 2)%Z
        /\ (Z.min r1 r2 <= (r1 + r2) / 2 <= Z.max r1 r2)%Z
        /\ (Z.min g1 g2 <= (g1 + g2) / 2 <= Z.max g1 g2)%Z
        /\ (Z.min b1 b2 <= (b1 + b2) / 2 <= Z.max b1 b2)%Z)
  /\ (forall rgb : Z * Z * Z,
        colour rgb ->
        ColorMixer.blend_colors (ColorMixer.rgb_to_hex rgb) (ColorMixer.rgb_to_hex rgb)
        = Ok (ColorMixer.rgb_to_hex rgb))
  /\ (forall s other : string,
        (String.length (lstrip_char "#"%char s) <= 4)%nat ->
        ColorMixer.blend_colors s other = Raise ValueError
        /\ ColorMixer.blend_colors other s = Raise ValueError).
Proof.
  split; [| split; [| split]].
  - intros c1 c2. unfold ColorMixer.blend_colors.
    destruct (ColorMixer.hex_to_rgb c1) as [[[r1 g1] b1] | e1] eqn:E1;
      destruct (ColorMixer.hex_to_rgb c2) as [[[r2 g2] b2] | e2] eqn:E2; cbn [bind].
    + rewrite (Z.add_comm r1 r2), (Z.add_comm g1 g2), (Z.add_comm b1 b2). reflexivity.
    + reflexivity.
    + reflexivity.
    + rewrite (hex_to_rgb_raises_ValueError _ _ E1), (hex_to_rgb_raises_ValueError _ _ E2).
      reflexivity.
  - intros r1 g1 b1 r2 g2 b2 (Hr1 & Hg1 & Hb1) (Hr2 & Hg2 & Hb2).
    unfold ColorMixer.blend_colors.
    rewrite !hex_to_rgb_of_channels by assumption. cbn [bind].
    destruct (Zdiv2_between r1 r2 Hr1 Hr2) as [Hr Hrm].
    destruct (Zdiv2_between g1 g2 Hg1 Hg2) as [Hg Hgm].
    destruct (Zdiv2_between b1 b2 Hb1 Hb2) as [Hb Hbm].
    repeat split; assumption || apply Hr || apply Hg || apply Hb
                  || apply Hrm || apply Hgm || apply Hbm.
  - intros [[r g] b] (Hr & Hg & Hb). unfold ColorMixer.blend_colors.
    rewrite !hex_to_rgb_of_channels by assumption. cbn [bind].
    replace ((r + r) / 2)%Z with r by (apply Z.div_unique_exact; lia).
    replace ((g + g) / 2)%Z with g by (apply Z.div_unique_exact; lia).
    replace ((b + b) / 2)%Z with b by (apply Z.div_unique_exact; lia).
    reflexivity.
  - intros s other Hlen. apply hex_to_rgb_short in Hlen.
    unfold ColorMixer.blend_colors. rewrite Hlen. split; [reflexivity |].
    destruct (ColorMixer.hex_to_rgb other) as [[[r g] b] | e] eqn:E; cbn [bind].
    + reflexivity.
    + rewrite (hex_to_rgb_raises_ValueError _ _ E). reflexivity.
Qed.

Lemma blend_colors_averages_witness :
  ColorMixer.blend_colors (ColorMixer.rgb_to_hex (255, 0, 0)%Z)
                          (ColorMixer.rgb_to_hex (0, 0, 255)%Z)
  = Ok (ColorMixer.rgb_to_hex ((255 + 0) / 2, (0 + 0) / 2, (0 + 255) / 2)%Z)
  /\ ColorMixer.blend_colors "#fff" "#000000" = Raise ValueError.
Proof.
  split.
  - apply (proj1 (proj2 blend_colors_averages) 255 0 0 0 0 255)%Z;
      unfold colour, channel; lia.
  - apply (proj2 (proj2 (proj2 blend_colors_averages)) "#fff"%string "#000000"%string).
    simpl. lia.
Defined.

End Colours.

(** ** Shading a colour *)

Section Shading.

Import GreatestUniverse Model Samples.

Lemma clamp8_floor (x : R) :
  let y := py_max 0 (py_min 255 x) in
  0 <= y <= 255 /\ clamp8 x = Zfloor y.
Proof.
  intros y. assert (Hy : 0 <= y <= 255).
  { subst y. unfold py_max, py_min.
    destruct (Rlt_dec x 255); destruct (Rlt_dec 0 _); lra. }
  split; [exact Hy |].
  unfold clamp8, int_of_float. fold y. destruct (Rlt_dec y 0); [lra | reflexivity].
Qed.

Lemma clamp8_range (x : R) : channel (clamp8 x).
Proof.
  destruct (clamp8_floor x) as [Hy ->].
  pose proof (Zfloor_bound (py_max 0 (py_min 255 x))) as [Hlo Hhi].
  unfold channel. split.
  - destruct (Z_lt_le_dec (Zfloor (py_max 0 (py_min 255 x))) 0) as [Hneg | Hpos];
      [| exact Hpos].
    exfalso. assert (Hle : (Zfloor (py_max 0 (py_min 255 x)) + 1 <= 0)%Z) by lia.
    apply IZR_le in Hle. rewrite plus_IZR in Hle. lra.
  - apply le_IZR. lra.
Qed.

Lemma clamp8_IZR (n : Z) : channel n -> clamp8 (IZR n) = n.
Proof.
  intros [Hlo Hhi]. destruct (clamp8_floor (IZR n)) as [_ ->].
  apply IZR_le in Hlo, Hhi.
  assert (Hy : py_max 0 (py_min 255 (IZR n)) = IZR n).
  { unfold py_max, py_min. destruct (Rlt_dec (IZR n) 255); destruct (Rlt_dec 0 _); lra. }
  rewrite Hy. apply Zfloor_eq. lra.
Qed.

Lemma clamp8_mono (x1 x2 : R) : x1 <= x2 -> (clamp8 x1 <= clamp8 x2)%Z.
Proof.
  intros Hx. destruct (clamp8_floor x1) as [_ ->]. destruct (clamp8_floor x2) as [_ ->].
  apply Zfloor_le. rewrite !py_max_Rmax, !py_min_Rmin.
  apply Rle_max_compat_l. apply Rle_min_compat_r. exact Hx.
Qed.

Lemma shade_channel_facts (c : Z) (amount : R) :
  channel c ->
  channel (shade_channel c amount)
  /\ (amount < 0 -> (shade_channel c amount <= c)%Z)
  /\ (0 <= amount -> (c <= shade_channel c amount)%Z)
  /\ (amount = 0 -> shade_channel c amount = c)
  /\ (amount <= -1 -> shade_channel c amount = 0%Z)
  /\ (1 <= amount -> shade_channel c amount = 255%Z).
Proof.
  intros Hc. pose proof Hc as [Hlo Hhi]. apply IZR_le in Hlo, Hhi.
  unfold shade_channel.
  split; [destruct (Rlt_dec amount 0); apply clamp8_range |].
  split; [| split; [| split; [| split]]].
  - intros Ha. destruct (Rlt_dec amount 0); [| lra].
    rewrite <- (clamp8_IZR c Hc) at 2. apply clamp8_mono. nra.
  - intros Ha. destruct (Rlt_dec amount 0); [lra |].
    rewrite <- (clamp8_IZR c Hc) at 1. apply clamp8_mono. nra.
  - intros ->. destruct (Rlt_dec 0 0); [lra |].
    replace (IZR c + (255 - IZR c) * 0) with (IZR c) by ring.
    apply clamp8_IZR. exact Hc.
  - intros Ha. destruct (Rlt_dec amount 0); [| lra].
    pose proof (clamp8_range (IZR c * (1 + amount))) as [Hge _].
    pose proof (clamp8_mono (IZR c * (1 + amount)) (IZR 0) ltac:(simpl; nra)) as Hle.
    rewrite clamp8_IZR in Hle by (unfold channel; lia). lia.
  - intros Ha. destruct (Rlt_dec amount 0); [lra |].
    pose proof (clamp8_range (IZR c + (255 - IZR c) * amount)) as [_ Hle].
    pose proof (clamp8_mono (IZR 255) (IZR c + (255 - IZR c) * amount)
                  ltac:(simpl; nra)) as Hge.
    rewrite clamp8_IZR in Hge by (unfold channel; lia). lia.
Qed.

Lemma shade_color_inv (s : string) (amount : R) (out : string) :
  shade_color s amount = Ok out ->
  exists r g b : Z,
    out = ColorMixer.rgb_to_hex
            (shade_channel r amount, shade_channel g amount, shade_channel b amount).
Proof.
  unfold shade_color. intros H.
  apply bind_Ok_inv in H as [r [_ H]].
  apply bind_Ok_inv in H as [g [_ H]].
  apply bind_Ok_inv in H as [b [_ H]].
  exists r, g, b. unfold shade_channel, ColorMixer.rgb_to_hex.
  destruct (Rlt_dec amount 0); injection H as <-; reflexivity.
Qed.

Lemma shade_color_of_channels (r g b : Z) (amount : R) :
  channel r -> channel g -> channel b ->
  shade_color (ColorMixer.rgb_to_hex (r, g, b)) amount
  = Ok (ColorMixer.rgb_to_hex
          (shade_channel r amount, shade_channel g amount, shade_channel b amount)).
Proof.
  intros Hr Hg Hb.
  destruct (format_02x_channel r Hr) as (r1 & r2 & Er & Hhash & Ir).
  destruct (format_02x_channel g Hg) as (g1 & g2 & Eg & _ & Ig).
  destruct (format_02x_channel b Hb) as (b1 & b2 & Eb & _ & Ib).
  assert (Hs : lstrip_char "#"%char (ColorMixer.rgb_to_hex (r, g, b))
               = String r1 (String r2 (String g1 (String g2
                   (String b1 (String b2 EmptyString)))))).
  { unfold ColorMixer.rgb_to_hex. rewrite Er, Eg, Eb.
    cbn [append lstrip_char]. rewrite Ascii.eqb_refl, Hhash. reflexivity. }
  unfold shade_color. rewrite Hs.
  unfold slice2. cbn [substring]. rewrite Ir, Ig, Ib. cbn [bind].
  unfold shade_channel, ColorMixer.rgb_to_hex.
  destruct (Rlt_dec amount 0); reflexivity.
Qed.

(** X24: whatever string and amount [shade_color] is given, what it
    returns is a colour of three channels in 0..255; on a colour written
    by [rgb_to_hex] it always returns, a negative amount never raises a
    channel and a non-negative one never lowers one, the amount 0 gives the
    colour back, an amount of -1 or less gives black and an amount of 1 or
    more gives white. *)
Theorem shade_color_stays_a_colour :
  (forall (s : string) (amount : R) (out : string),
      shade_color s amount = Ok out ->
      exists rgb, colour rgb /\ out = ColorMixer.rgb_to_hex rgb)
  /\ (forall (r g b : Z) (amount : R),
        colour (r, g, b) ->
        exists r' g' b' : Z,
          shade_color (ColorMixer.rgb_to_hex (r, g, b)) amount
          = Ok (ColorMixer.rgb_to_hex (r', g', b'))
          /\ colour (r', g', b')
          /\ (amount < 0 -> (r' <= r /\ g' <= g /\ b' <= b)%Z)
          /\ (0 <= amount -> (r <= r' /\ g <= g' /\ b <= b')%Z)
          /\ (amount = 0 -> (r', g', b') = (r, g, b))
          /\ (amount <= -1 -> (r', g', b') = (0, 0, 0)%Z)
          /\ (1 <= amount -> (r', g', b') = (255, 255, 255)%Z)).
Proof.
  split.
  - intros s amount out H. apply shade_color_inv in H as (r & g & b & ->).
    eexists. split; [| reflexivity].
    unfold colour, shade_channel.
    destruct (Rlt_dec amount 0); repeat split; apply clamp8_range.
  - intros r g b amount (Hr & Hg & Hb).
    destruct (shade_channel_facts r amount Hr) as (Cr & Dr & Lr & Zr & Br & Wr).
    destruct (shade_channel_facts g amount Hg) as (Cg & Dg & Lg & Zg & Bg & Wg).
    destruct (shade_channel_facts b amount Hb) as (Cb & Db & Lb & Zb & Bb & Wb).
    exists (shade_channel r amount), (shade_channel g amount), (shade_channel b amount).
    split; [apply shade_color_of_channels; assumption |].
    split; [repeat split; assumption || apply Cr || apply Cg || apply Cb |].
    split; [intros H; auto |].
    split; [intros H; auto |].
    split; [intros H; rewrite Zr, Zg, Zb by exact H; reflexivity |].
    split; [intros H; rewrite Br, Bg, Bb by exact H; reflexivity |].
    intros H. rewrite Wr, Wg, Wb by exact H. reflexivity.
Qed.

Lemma shade_color_stays_a_colour_witness :
  exists r' g' b' : Z,
    shade_color (ColorMixer.rgb_to_hex (94, 166, 255)%Z) (-0.45)
    = Ok (ColorMixer.rgb_to_hex (r', g', b'))
    /\ colour (r', g', b')
    /\ (r' <= 94 /\ g' <= 166 /\ b' <= 255)%Z.
Proof.
  destruct (proj2 shade_color_stays_a_colour 94%Z 166%Z 255%Z (-0.45))
    as (r' & g' & b' & Hs & Hc & Hd & _).
  - unfold colour, channel. lia.
  - exists r', g', b'. split; [exact Hs | split; [exact Hc |]].
    apply Hd. lra.
Defined.

End Shading.

(** ** Moons follow their planet *)

Section MoonsFollow.

Import Model Samples.

Lemma moon_position_within (m : GreatestUniverse.Moon.t) (r t px py x y : R) :
  GreatestUniverse.Moon.position m r t px py = Ok (x, y) ->
  math_hypot (x - px) (y - py) <= Rabs (moon_radius r m).
Proof.
  intros H.
  assert (Hper : GreatestUniverse.Moon.orbital_period m <> 0).
  { intros Hz. rewrite moon_position_zero_period in H by exact Hz. discriminate. }
  rewrite moon_position_ok in H by exact Hper. injection H as <- <-.
  set (rad := math_radians (Spec.mod1 (t / GreatestUniverse.Moon.orbital_period m) * 360
                            + GreatestUniverse.Moon.angle m)).
  set (ci := cos (math_radians (GreatestUniverse.Moon.incl m))).
  set (rm := moon_radius r m).
  unfold math_hypot.
  rewrite <- (sqrt_Rsqr_abs rm). apply sqrt_le_1_alt. unfold Rsqr.
  replace (px + rm * cos rad - px) with (rm * cos rad) by ring.
  replace (py + rm * sin rad * ci - py) with (rm * sin rad * ci) by ring.
  pose proof (sin_cos_unit rad) as Hunit.
  assert (Hci : ci * ci <= 1).
  { pose proof (COS_bound (math_radians (GreatestUniverse.Moon.incl m))). subst ci. nra. }
  assert (Hsq : 0 <= (rm * sin rad) * (rm * sin rad)) by nra.
  nra.
Qed.

Lemma moon_config_radius (m m' : GreatestUniverse.Moon.t) (r : R) :
  moon_config m' = moon_config m -> moon_radius r m' = moon_radius r m.
Proof.
  unfold moon_config, moon_radius. intros H.
  injection H as _ Hd _ _ _ _ _ _. rewrite Hd. reflexivity.
Qed.

(** X25: moons are placed around the place their planet has just been
    moved to, not the one it had in the previous frame: after [Planet.draw]
    of the greatest-universe simulator every moon is within its orbital
    radius of the planet's new position, and after [Planet.update] of
    [solar_system.py] with moons shown every moon is exactly [orbit_px]
    away from the planet's new position. *)
Theorem moons_follow_their_planet :
  (forall (g : GreatestUniverse.Globals) (p p' : GreatestUniverse.Planet.t) (t dt : R),
      GreatestUniverse.Planet.draw g p t dt = Ok p' ->
      Forall (fun m' =>
                math_hypot
                  (GreatestUniverse.Moon.curr_x m' - GreatestUniverse.Planet.curr_x p')
                  (GreatestUniverse.Moon.curr_y m' - GreatestUniverse.Planet.curr_y p')
                <= Rabs (moon_radius (GreatestUniverse.Planet.radius_px p') m'))
             (GreatestUniverse.Planet.moons p'))
  /\ (forall (p p' : SolarSystem.Planet.t) (dt s : R),
        Forall (fun m => 0 <= SolarSystem.Moon.orbit_px m) (SolarSystem.Planet.moons p) ->
        SolarSystem.Planet.update true p dt s = Ok p' ->
        Forall (fun m' =>
                  math_hypot
                    (fst (SolarSystem.Moon.pos m') - fst (SolarSystem.Planet.pos p'))
                    (snd (SolarSystem.Moon.pos m') - snd (SolarSystem.Planet.pos p'))
                  = SolarSystem.Moon.orbit_px m')
               (SolarSystem.Planet.moons p')).
Proof.
  split.
  - intros g p p' t dt H.
    apply planet_draw_inv in H as (Hc & _ & _ & Hms).
    assert (Hrad : GreatestUniverse.Planet.radius_px p' = GreatestUniverse.Planet.radius_px p).
    { unfold planet_config in Hc. injection Hc as _ _ _ _ _ _ Hr _ _ _. exact Hr. }
    rewrite Hrad.
    eapply Forall2_Forall_r; [exact Hms |].
    apply Forall_forall. intros m _ m' Hd.
    apply moon_draw_inv in Hd as (Hmc & Hpos & _).
    rewrite (moon_config_radius m m') by exact Hmc.
    apply moon_position_within with (t := t). exact Hpos.
  - intros p p' dt s Hr H. unfold SolarSystem.Planet.update in H.
    apply bind_Ok_inv in H as [ang [_ H]].
    apply bind_Ok_inv in H as [[x y] [_ H]].
    apply bind_Ok_inv in H as [ms [Hms H]]. injection H as <-.
    cbn [SolarSystem.Planet.set_moons SolarSystem.Planet.moons SolarSystem.Planet.pos
         SolarSystem.Planet.set_angle_pos fst snd] in *.
    apply for_each_Forall2 in Hms.
    eapply Forall2_Forall_r; [exact Hms |].
    eapply Forall_impl; [| exact Hr].
    intros m Hm m' Hup.
    destruct (solar_moon_update_ok m x y dt s) as [a [_ Hok]].
    rewrite Hok in Hup. injection Hup as <-. cbn.
    unfold math_hypot, math_cos, math_sin.
    match goal with
    | |- sqrt ((x + ?c * ?r - x) * _ + (y + ?sn * ?r - y) * _) = _ =>
        replace ((x + c * r - x) * (x + c * r - x)
                 + (y + sn * r - y) * (y + sn * r - y))
          with ((r * c) * (r * c) + (r * sn) * (r * sn)) by ring
    end.
    apply circle_distance; [exact Hm | apply sin_cos_unit].
Qed.

Lemma moons_follow_their_planet_witness :
  exists p',
    GreatestUniverse.Planet.draw (GreatestUniverse.initial_globals 0) sample_planet 10 1
    = Ok p'
    /\ Forall (fun m' =>
                 math_hypot
                   (GreatestUniverse.Moon.curr_x m' - GreatestUniverse.Planet.curr_x p')
                   (GreatestUniverse.Moon.curr_y m' - GreatestUniverse.Planet.curr_y p')
                 <= Rabs (moon_radius (GreatestUniverse.Planet.radius_px p') m'))
              (GreatestUniverse.Planet.moons p').
Proof.
  destruct (planet_draw_returns (GreatestUniverse.initial_globals 0) sample_planet 10 1)
    as [p' Hp'].
  { apply (Forall_inv (proj2 sample_world_valid)). }
  exists p'. split; [exact Hp' |].
  apply (proj1 moons_follow_their_planet _ _ _ _ _ Hp').
Defined.

End MoonsFollow.
